(** * Parameter handling of [rclpy.node.Node]

    A shallow embedding of the parameter store of [rclpy/node.py]
    (declare / undeclare / get / set / set-atomically) together with
    [rclpy/validate_parameter_name.py], and the properties of the
    parameter API stated in the design specification.

    The node is a record holding the dictionary [_parameters], the optional
    callback, the [allow_undeclared_parameters] flag, the clock and the log
    of the messages handed to the parameter-event publisher.  Methods are
    computations in a state-and-exception monad: a Python exception leaves
    the mutations made before it in place, so a raising computation still
    returns the node it reached. *)

From Stdlib Require Import ZArith String List.
From Stdlib Require Import Floats.SpecFloat.
From stdpp Require Import base option list strings gmap fin_maps.

Local Open Scope Z_scope.
Local Open Scope string_scope.

(** ** Messages and parameters *)

(** [Parameter.Type]: the tags of a parameter value. *)
Inductive ParameterType : Type :=
  | NOT_SET
  | BOOL
  | INTEGER
  | DOUBLE
  | STRING
  | BYTE_ARRAY
  | BOOL_ARRAY
  | INTEGER_ARRAY
  | DOUBLE_ARRAY
  | STRING_ARRAY.

#[global] Instance ParameterType_eq_dec : EqDecision ParameterType.
Proof. solve_decision. Defined.

(** Modelled from the spec: [rcl_interfaces.msg.ParameterValue] is not part
    of the sources; the data model describes it as a union typed according
    to the tag, with no payload for NOT_SET.  A double is kept as its
    IEEE-754 description. *)
Inductive ParameterValue : Type :=
  | PV_NOT_SET
  | PV_BOOL (b : bool)
  | PV_INTEGER (i : Z)
  | PV_DOUBLE (d : spec_float)
  | PV_STRING (s : string)
  | PV_BYTE_ARRAY (bs : list Byte.byte)
  | PV_BOOL_ARRAY (bs : list bool)
  | PV_INTEGER_ARRAY (zs : list Z)
  | PV_DOUBLE_ARRAY (ds : list spec_float)
  | PV_STRING_ARRAY (ss : list string).

Definition from_parameter_value (v : ParameterValue) : ParameterType :=
  match v with
  | PV_NOT_SET => NOT_SET
  | PV_BOOL _ => BOOL
  | PV_INTEGER _ => INTEGER
  | PV_DOUBLE _ => DOUBLE
  | PV_STRING _ => STRING
  | PV_BYTE_ARRAY _ => BYTE_ARRAY
  | PV_BOOL_ARRAY _ => BOOL_ARRAY
  | PV_INTEGER_ARRAY _ => INTEGER_ARRAY
  | PV_DOUBLE_ARRAY _ => DOUBLE_ARRAY
  | PV_STRING_ARRAY _ => STRING_ARRAY
  end.

(** Modelled from the spec: [rcl_interfaces.msg.ParameterDescriptor] is not
    part of the sources; the code reads its [read_only] attribute only and
    builds the default descriptor with [ParameterDescriptor()]. *)
Record ParameterDescriptor : Type := mkDescriptor {
  description : string;
  read_only : bool
}.

Definition default_descriptor : ParameterDescriptor :=
  {| description := ""; read_only := false |}.

(** [rcl_interfaces.msg.Parameter]: a name and a value. *)
Record ParameterMsg : Type := mkParameterMsg {
  msg_name : string;
  msg_value : ParameterValue
}.

(** Modelled from the spec: [rclpy.parameter.Parameter] is not part of the
    sources; it carries a name, a typed value and a descriptor, and its tag
    [type_] always agrees with its value.  (The class is called [Parameter];
    that word is reserved here.) *)
Record Param : Type := mkParam {
  name : string;
  value : ParameterValue;
  descriptor : ParameterDescriptor
}.

Definition type_ (p : Param) : ParameterType := from_parameter_value (value p).

(** [Parameter(name, Parameter.Type.NOT_SET)] *)
Definition Parameter_NOT_SET (nm : string) : Param :=
  {| name := nm; value := PV_NOT_SET; descriptor := default_descriptor |}.

(** [Parameter.from_parameter_msg(param_msg, descriptor)] *)
Definition from_parameter_msg (m : ParameterMsg) (d : ParameterDescriptor) : Param :=
  {| name := msg_name m; value := msg_value m; descriptor := d |}.

(** [param.to_parameter_msg()] *)
Definition to_parameter_msg (p : Param) : ParameterMsg :=
  {| msg_name := name p; msg_value := value p |}.

(** [rcl_interfaces.msg.SetParametersResult] *)
Record SetParametersResult : Type := mkSetParametersResult {
  successful : bool;
  reason : string
}.

(** [SetParametersResult(successful=True)] *)
Definition SetParametersResult_ok : SetParametersResult :=
  {| successful := true; reason := "" |}.

(** A reading of the node clock, in nanoseconds. *)
Definition Time : Type := Z.

(** [rcl_interfaces.msg.ParameterEvent] *)
Record ParameterEvent : Type := mkParameterEvent {
  stamp : Time;
  node : string;
  new_parameters : list ParameterMsg;
  changed_parameters : list ParameterMsg;
  deleted_parameters : list ParameterMsg
}.

(** [ParameterEvent()] *)
Definition ParameterEvent_empty : ParameterEvent :=
  {| stamp := 0; node := "";
     new_parameters := []; changed_parameters := []; deleted_parameters := [] |}.

(** ** The node *)

(** The clock is outside the program: [readings] gives what successive calls
    of [now()] return, [reads] counts the calls made so far. *)
Record Clock : Type := mkClock {
  readings : nat → Time;
  reads : nat
}.

Definition now (c : Clock) : Time * Clock :=
  (readings c (reads c), {| readings := readings c; reads := S (reads c) |}).

(** The attributes of [Node] the parameter methods use.  The publisher is
    represented by the messages passed to its [publish], oldest first;
    [node_name] and [node_namespace] are what [get_name()] and
    [get_namespace()] return. *)
Record Node : Type := mkNode {
  _parameters : gmap string Param;
  _parameters_callback : option (list Param → SetParametersResult);
  _allow_undeclared_parameters : bool;
  _clock : Clock;
  _parameter_event_publisher : list ParameterEvent;
  node_name : string;
  node_namespace : string
}.

Definition with_parameters (self : Node) (ps : gmap string Param) : Node :=
  {| _parameters := ps;
     _parameters_callback := _parameters_callback self;
     _allow_undeclared_parameters := _allow_undeclared_parameters self;
     _clock := _clock self;
     _parameter_event_publisher := _parameter_event_publisher self;
     node_name := node_name self;
     node_namespace := node_namespace self |}.

(** [stamp = self._clock.now().to_msg(); publisher.publish(event)] *)
Definition stamp_and_publish (self : Node) (ev : ParameterEvent) : Node :=
  let '(t, c) := now (_clock self) in
  {| _parameters := _parameters self;
     _parameters_callback := _parameters_callback self;
     _allow_undeclared_parameters := _allow_undeclared_parameters self;
     _clock := c;
     _parameter_event_publisher :=
       _parameter_event_publisher self ++
       [ {| stamp := t; node := node ev;
            new_parameters := new_parameters ev;
            changed_parameters := changed_parameters ev;
            deleted_parameters := deleted_parameters ev |} ];
     node_name := node_name self;
     node_namespace := node_namespace self |}.

(** [set_parameters_callback]: the last registration wins. *)
Definition set_parameters_callback
    (callback : list Param → SetParametersResult) (self : Node) : Node :=
  {| _parameters := _parameters self;
     _parameters_callback := Some callback;
     _allow_undeclared_parameters := _allow_undeclared_parameters self;
     _clock := _clock self;
     _parameter_event_publisher := _parameter_event_publisher self;
     node_name := node_name self;
     node_namespace := node_namespace self |}.

(** ** Exceptions and the method monad *)

(** What an exception of the parameter API is constructed with.  The
    declared-ness checks pass what is left of a generator of booleans, the
    other raise sites pass a name. *)
Inductive exn_arg : Type :=
  | ArgName (nm : string)
  | ArgFlags (flags : list bool).

Inductive exn : Type :=
  | ParameterAlreadyDeclaredException (parameters : exn_arg)
  | ParameterNotDeclaredException (parameters : exn_arg)
  | ParameterImmutableException (nm : string)
  | InvalidParameterException (nm : string) (error_msg : string) (invalid_index : Z)
  | InvalidParameterValueException (nm : string) (v : ParameterValue)
  | IndexError.

(** A method call: from the node before to the node after and either the
    exception raised or the value returned. *)
Definition M (A : Type) : Type := Node → Node * (exn + A).

Definition ret {A : Type} (a : A) : M A := λ self, (self, inr a).

Definition raise {A : Type} (e : exn) : M A := λ self, (self, inl e).

Definition bind {A B : Type} (m : M A) (k : A → M B) : M B :=
  λ self,
    match m self with
    | (self', inl e) => (self', inl e)
    | (self', inr a) => k a self'
    end.

Notation "x <~ m ;; k" := (bind m (λ x, k))
  (at level 100, m at next level, right associativity).

Fixpoint mapM {A B : Type} (f : A → M B) (l : list A) : M (list B) :=
  match l with
  | [] => ret []
  | a :: l' => b <~ f a ;; bs <~ mapM f l' ;; ret (b :: bs)
  end.

(** [any(g)] on a generator [g]: the answer and what is left of [g], which
    stops being consumed at the first true element. *)
Fixpoint any_gen (g : list bool) : bool * list bool :=
  match g with
  | [] => (false, [])
  | b :: g' => if b then (true, g') else any_gen g'
  end.

(** ** The parameter methods of [Node] *)

Section Methods.

(** [_rclpy.rclpy_get_validation_error_for_topic_name], the native
    validator: [None] for a valid name, otherwise a message and the index
    of the offending character. *)
Variable rclpy_get_validation_error_for_topic_name : string → option (string * Z).

(** [validate_parameter_name.validate_parameter_name] *)
Definition validate_parameter_name (nm : string) : M bool :=
  match rclpy_get_validation_error_for_topic_name nm with
  | None => ret true
  | Some (error_msg, invalid_index) =>
      raise (InvalidParameterException nm error_msg invalid_index)
  end.

(** [Node.has_parameter] *)
Definition has_parameter (nm : string) (self : Node) : bool :=
  if _parameters self !! nm is Some _ then true else false.

(** [Node.get_parameter] *)
Definition get_parameter (nm : string) : M Param :=
  λ self,
    match _parameters self !! nm with
    | Some p => (self, inr p)
    | None =>
        if _allow_undeclared_parameters self
        then (self, inr (Parameter_NOT_SET nm))
        else (self, inl (ParameterNotDeclaredException (ArgName nm)))
    end.

(** [Node.get_parameters]; every name is a [str] here, so the [TypeError]
    branch is not reachable. *)
Definition get_parameters (names : list string) : M (list Param) :=
  mapM get_parameter names.

(** [Node.get_parameter_or]; it reads the node and never changes it. *)
Definition get_parameter_or
    (nm : string) (alternative_value : option Param) (self : Node) : Param :=
  let alternative_value :=
    match alternative_value with
    | None => Parameter_NOT_SET nm
    | Some a => a
    end in
  default alternative_value (_parameters self !! nm).

(** [Node.undeclare_parameter] *)
Definition undeclare_parameter (nm : string) : M unit :=
  λ self,
    match _parameters self !! nm with
    | Some p =>
        if read_only (descriptor p)
        then (self, inl (ParameterImmutableException nm))
        else (with_parameters self (delete nm (_parameters self)), inr tt)
    | None => (self, inl (ParameterNotDeclaredException (ArgName nm)))
    end.

(** The node path put in a parameter event. *)
Definition fully_qualified_path (self : Node) : string :=
  if String.eqb (node_namespace self) "/"
  then node_namespace self +:+ node_name self
  else node_namespace self +:+ "/" +:+ node_name self.

Definition append_new (ev : ParameterEvent) (m : ParameterMsg) : ParameterEvent :=
  {| stamp := stamp ev; node := node ev;
     new_parameters := new_parameters ev ++ [m];
     changed_parameters := changed_parameters ev;
     deleted_parameters := deleted_parameters ev |}.

Definition append_changed (ev : ParameterEvent) (m : ParameterMsg) : ParameterEvent :=
  {| stamp := stamp ev; node := node ev;
     new_parameters := new_parameters ev;
     changed_parameters := changed_parameters ev ++ [m];
     deleted_parameters := deleted_parameters ev |}.

Definition append_deleted (ev : ParameterEvent) (m : ParameterMsg) : ParameterEvent :=
  {| stamp := stamp ev; node := node ev;
     new_parameters := new_parameters ev;
     changed_parameters := changed_parameters ev;
     deleted_parameters := deleted_parameters ev ++ [m] |}.

(** The body of the [for param in parameter_list] loop of
    [_set_parameters_atomically]. *)
Definition set_one (param : Param) (st : Node * ParameterEvent) : Node * ParameterEvent :=
  let '(self, parameter_event) := st in
  if decide (NOT_SET = type_ param) then
    let parameter_event :=
      if decide (NOT_SET ≠ type_ (get_parameter_or (name param) None self))
      then append_deleted parameter_event (to_parameter_msg param)
      else parameter_event in
    let self :=
      if has_parameter (name param) self
      then with_parameters self (delete (name param) (_parameters self))
      else self in
    (self, parameter_event)
  else
    let parameter_event :=
      if decide (NOT_SET = type_ (get_parameter_or (name param) None self))
      then append_new parameter_event (to_parameter_msg param)
      else append_changed parameter_event (to_parameter_msg param) in
    (with_parameters self (<[name param := param]> (_parameters self)), parameter_event).

Fixpoint set_each (parameter_list : list Param) (st : Node * ParameterEvent)
    : Node * ParameterEvent :=
  match parameter_list with
  | [] => st
  | param :: rest => set_each rest (set_one param st)
  end.

(** What the callback, or its absence, answers for a batch. *)
Definition callback_result (self : Node) (parameter_list : list Param)
    : SetParametersResult :=
  match _parameters_callback self with
  | Some callback => callback parameter_list
  | None => SetParametersResult_ok
  end.

(** [Node._set_parameters_atomically] *)
Definition _set_parameters_atomically (parameter_list : list Param)
    : M SetParametersResult :=
  λ self,
    let result := callback_result self parameter_list in
    if successful result then
      let parameter_event :=
        {| stamp := stamp ParameterEvent_empty;
           node := fully_qualified_path self;
           new_parameters := []; changed_parameters := [];
           deleted_parameters := [] |} in
      let '(self, parameter_event) := set_each parameter_list (self, parameter_event) in
      (stamp_and_publish self parameter_event, inr result)
    else (self, inr result).

(** [Node.set_parameters_atomically]; every element is a [Parameter] here,
    so the [TypeError] branch is not reachable.  The generator
    [undeclared_parameters] is consumed by [any] and what is left of it is
    given to the exception. *)
Definition set_parameters_atomically (parameter_list : list Param)
    : M SetParametersResult :=
  λ self,
    let undeclared_parameters :=
      map (λ parameter, negb (has_parameter (name parameter) self)) parameter_list in
    if negb (_allow_undeclared_parameters self) && (any_gen undeclared_parameters).1
    then raise (ParameterNotDeclaredException
                  (ArgFlags (any_gen undeclared_parameters).2)) self
    else _set_parameters_atomically parameter_list self.

(** The loop of [Node._set_parameters], [results] being the list built so
    far. *)
Fixpoint _set_parameters_loop
    (setter_func : list Param → M SetParametersResult) (raise_on_failure : bool)
    (parameter_list : list Param) (results : list SetParametersResult)
    : M (list SetParametersResult) :=
  match parameter_list with
  | [] => ret results
  | param :: rest =>
      result <~ setter_func [param] ;;
      if raise_on_failure && negb (successful result)
      then raise (InvalidParameterValueException (name param) (value param))
      else _set_parameters_loop setter_func raise_on_failure rest (results ++ [result])
  end.

(** [Node._set_parameters] *)
Definition _set_parameters
    (parameter_list : list Param)
    (setter_func : option (list Param → M SetParametersResult))
    (raise_on_failure : bool) : M (list SetParametersResult) :=
  let setter_func :=
    match setter_func with
    | None => _set_parameters_atomically
    | Some f => f
    end in
  _set_parameters_loop setter_func raise_on_failure parameter_list [].

(** [Node.set_parameters] *)
Definition set_parameters (parameter_list : list Param)
    : M (list SetParametersResult) :=
  _set_parameters parameter_list (Some set_parameters_atomically) false.

(** The first loop of [Node.declare_parameters]: names are validated and
    the parameters built, in order. *)
Fixpoint build_parameter_list
    (namespace : string)
    (parameters : list (string * ParameterValue * ParameterDescriptor))
    : M (list Param) :=
  match parameters with
  | [] => ret []
  | parameter_tuple :: rest =>
      let full_name := namespace +:+ parameter_tuple.1.1 in
      _ <~ validate_parameter_name full_name ;;
      parameter_list <~ build_parameter_list namespace rest ;;
      ret (from_parameter_msg
             {| msg_name := full_name; msg_value := parameter_tuple.1.2 |}
             parameter_tuple.2 :: parameter_list)
  end.

(** [Node.declare_parameters].  The generator [parameters_already_declared]
    is consumed by [any] and what is left of it is given to the
    exception. *)
Definition declare_parameters
    (namespace : string)
    (parameters : list (string * ParameterValue * ParameterDescriptor))
    : M (list Param) :=
  parameter_list <~ build_parameter_list namespace parameters ;;
  (λ self,
     let parameters_already_declared :=
       map (λ parameter, has_parameter (name parameter) self) parameter_list in
     if (any_gen parameters_already_declared).1
     then raise (ParameterAlreadyDeclaredException
                   (ArgFlags (any_gen parameters_already_declared).2)) self
     else
       (_ <~ _set_parameters parameter_list None true ;;
        get_parameters (map name parameter_list)) self).

(** [Node.declare_parameter]: element [0] of the list [declare_parameters]
    returns. *)
Definition declare_parameter
    (nm : string) (v : ParameterValue) (d : ParameterDescriptor) : M Param :=
  ps <~ declare_parameters "" [(nm, v, d)] ;;
  match ps with
  | p :: _ => ret p
  | [] => raise IndexError
  end.

(** [Node.describe_parameter]: the [KeyError] of the dictionary access is
    the absent case. *)
Definition describe_parameter (nm : string) : M ParameterDescriptor :=
  λ self,
    match _parameters self !! nm with
    | Some p => (self, inr (descriptor p))
    | None =>
        if _allow_undeclared_parameters self
        then (self, inr default_descriptor)
        else (self, inl (ParameterNotDeclaredException (ArgName nm)))
    end.

(** [Node.describe_parameters] *)
Definition describe_parameters (names : list string) : M (list ParameterDescriptor) :=
  mapM describe_parameter names.

End Methods.

(** ** The entities of a node *)

(** The classes of the entities a node keeps ([Publisher], [Subscription],
    [Client], [Service], [WallTimer], [GuardCondition], [Waitable]) and of
    the native handles are not part of the sources.  They are taken as an
    interface: types whose equality is Python's [==], and the handle
    attributes the node reads. *)
Class EntityTypes : Type := {
  Handle : Type;
  Publisher : Type;
  Subscription : Type;
  Client : Type;
  Service : Type;
  WallTimer : Type;
  GuardCondition : Type;
  Waitable : Type;
  Handle_eq_dec :: EqDecision Handle;
  Publisher_eq_dec :: EqDecision Publisher;
  Subscription_eq_dec :: EqDecision Subscription;
  Client_eq_dec :: EqDecision Client;
  Service_eq_dec :: EqDecision Service;
  WallTimer_eq_dec :: EqDecision WallTimer;
  GuardCondition_eq_dec :: EqDecision GuardCondition;
  Waitable_eq_dec :: EqDecision Waitable;
  publisher_handle : Publisher → Handle;
  client_handle : Client → Handle;
  service_handle : Service → Handle;
  timer_handle : WallTimer → Handle;
  (** [tmr.clock._clock_handle] *)
  timer_clock_handle : WallTimer → Handle;
  guard_handle : GuardCondition → Handle
}.

Section EntityMethods.

Context `{EntityTypes}.

(** The calls into the native layer and into a subscription that the
    destroy methods make. *)
Inductive NativeCall : Type :=
  | rclpy_destroy_node_entity (entity : Handle) (node_handle : option Handle)
  | rclpy_destroy_entity (entity : Handle)
  | subscription_destroy (subscription : Subscription).

(** The attributes of [Node] the entity methods use.  [native_calls] is the
    record of the native calls made so far, oldest first;
    [parameter_event_publisher_kept] tells whether the attribute
    [_parameter_event_publisher] still refers to the publisher. *)
Record EntityNode : Type := mkEntityNode {
  _handle : option Handle;
  publishers : list Publisher;
  subscriptions : list Subscription;
  clients : list Client;
  services : list Service;
  timers : list WallTimer;
  guards : list GuardCondition;
  waitables : list Waitable;
  parameter_event_publisher_kept : bool;
  native_calls : list NativeCall
}.

Definition set_publishers (l : list Publisher) (self : EntityNode) : EntityNode :=
  {| _handle := _handle self; publishers := l; subscriptions := subscriptions self;
     clients := clients self; services := services self; timers := timers self;
     guards := guards self; waitables := waitables self;
     parameter_event_publisher_kept := parameter_event_publisher_kept self;
     native_calls := native_calls self |}.

Definition set_subscriptions (l : list Subscription) (self : EntityNode) : EntityNode :=
  {| _handle := _handle self; publishers := publishers self; subscriptions := l;
     clients := clients self; services := services self; timers := timers self;
     guards := guards self; waitables := waitables self;
     parameter_event_publisher_kept := parameter_event_publisher_kept self;
     native_calls := native_calls self |}.

Definition set_clients (l : list Client) (self : EntityNode) : EntityNode :=
  {| _handle := _handle self; publishers := publishers self;
     subscriptions := subscriptions self;
     clients := l; services := services self; timers := timers self;
     guards := guards self; waitables := waitables self;
     parameter_event_publisher_kept := parameter_event_publisher_kept self;
     native_calls := native_calls self |}.

Definition set_services (l : list Service) (self : EntityNode) : EntityNode :=
  {| _handle := _handle self; publishers := publishers self;
     subscriptions := subscriptions self;
     clients := clients self; services := l; timers := timers self;
     guards := guards self; waitables := waitables self;
     parameter_event_publisher_kept := parameter_event_publisher_kept self;
     native_calls := native_calls self |}.

Definition set_timers (l : list WallTimer) (self : EntityNode) : EntityNode :=
  {| _handle := _handle self; publishers := publishers self;
     subscriptions := subscriptions self;
     clients := clients self; services := services self; timers := l;
     guards := guards self; waitables := waitables self;
     parameter_event_publisher_kept := parameter_event_publisher_kept self;
     native_calls := native_calls self |}.

Definition set_guards (l : list GuardCondition) (self : EntityNode) : EntityNode :=
  {| _handle := _handle self; publishers := publishers self;
     subscriptions := subscriptions self;
     clients := clients self; services := services self; timers := timers self;
     guards := l; waitables := waitables self;
     parameter_event_publisher_kept := parameter_event_publisher_kept self;
     native_calls := native_calls self |}.

Definition set_waitables (l : list Waitable) (self : EntityNode) : EntityNode :=
  {| _handle := _handle self; publishers := publishers self;
     subscriptions := subscriptions self;
     clients := clients self; services := services self; timers := timers self;
     guards := guards self; waitables := l;
     parameter_event_publisher_kept := parameter_event_publisher_kept self;
     native_calls := native_calls self |}.

(** The native calls [calls] are made, in order. *)
Definition call_native (calls : list NativeCall) (self : EntityNode) : EntityNode :=
  {| _handle := _handle self; publishers := publishers self;
     subscriptions := subscriptions self;
     clients := clients self; services := services self; timers := timers self;
     guards := guards self; waitables := waitables self;
     parameter_event_publisher_kept := parameter_event_publisher_kept self;
     native_calls := (native_calls self ++ calls)%list |}.

(** The exception a list raises when asked to remove what it does not hold. *)
Inductive entity_exn : Type :=
  | ValueError.

(** [l.remove(x)]: [l] without its first element equal to [x]; [None] when
    there is none, where Python raises [ValueError]. *)
Fixpoint list_remove {E : Type} `{!EqDecision E} (x : E) (l : list E) : option (list E) :=
  match l with
  | [] => None
  | y :: l' =>
      if decide (y = x) then Some l'
      else match list_remove x l' with
           | Some r => Some (y :: r)
           | None => None
           end
  end.

(** [for e in entities: if e.handle == target: ...; return True]: the entity
    the loop stops at, the first whose handle equals [target]. *)
Fixpoint first_with_handle {E : Type} (handle_of : E → Handle) (target : Handle)
    (entities : list E) : option E :=
  match entities with
  | [] => None
  | e :: rest =>
      if decide (handle_of e = target) then Some e
      else first_with_handle handle_of target rest
  end.

(** [Node.add_waitable] *)
Definition add_waitable (waitable : Waitable) (self : EntityNode) : EntityNode :=
  set_waitables (waitables self ++ [waitable])%list self.

(** [Node.remove_waitable] *)
Definition remove_waitable (waitable : Waitable) (self : EntityNode)
    : EntityNode * (entity_exn + unit) :=
  match list_remove waitable (waitables self) with
  | Some l => (set_waitables l self, inr tt)
  | None => (self, inl ValueError)
  end.

(** [Node.destroy_publisher] *)
Definition destroy_publisher (publisher : Publisher) (self : EntityNode)
    : EntityNode * (entity_exn + bool) :=
  match first_with_handle publisher_handle (publisher_handle publisher) (publishers self) with
  | Some pub =>
      let self :=
        call_native [rclpy_destroy_node_entity (publisher_handle pub) (_handle self)] self in
      match list_remove pub (publishers self) with
      | Some l => (set_publishers l self, inr true)
      | None => (self, inl ValueError)
      end
  | None => (self, inr false)
  end.

(** [Node.destroy_subscription] *)
Definition destroy_subscription (subscription : Subscription) (self : EntityNode)
    : EntityNode * (entity_exn + bool) :=
  if decide (subscription ∈ subscriptions self) then
    match list_remove subscription (subscriptions self) with
    | Some l =>
        (call_native [subscription_destroy subscription] (set_subscriptions l self),
         inr true)
    | None => (self, inl ValueError)
    end
  else (self, inr false).

(** [Node.destroy_client] *)
Definition destroy_client (client : Client) (self : EntityNode)
    : EntityNode * (entity_exn + bool) :=
  match first_with_handle client_handle (client_handle client) (clients self) with
  | Some cli =>
      let self :=
        call_native [rclpy_destroy_node_entity (client_handle cli) (_handle self)] self in
      match list_remove cli (clients self) with
      | Some l => (set_clients l self, inr true)
      | None => (self, inl ValueError)
      end
  | None => (self, inr false)
  end.

(** [Node.destroy_service] *)
Definition destroy_service (service : Service) (self : EntityNode)
    : EntityNode * (entity_exn + bool) :=
  match first_with_handle service_handle (service_handle service) (services self) with
  | Some srv =>
      let self :=
        call_native [rclpy_destroy_node_entity (service_handle srv) (_handle self)] self in
      match list_remove srv (services self) with
      | Some l => (set_services l self, inr true)
      | None => (self, inl ValueError)
      end
  | None => (self, inr false)
  end.

(** [Node.destroy_timer] *)
Definition destroy_timer (timer : WallTimer) (self : EntityNode)
    : EntityNode * (entity_exn + bool) :=
  match first_with_handle timer_handle (timer_handle timer) (timers self) with
  | Some tmr =>
      let self :=
        call_native [rclpy_destroy_entity (timer_handle tmr);
                     rclpy_destroy_entity (timer_clock_handle tmr)] self in
      match list_remove tmr (timers self) with
      | Some l => (set_timers l self, inr true)
      | None => (self, inl ValueError)
      end
  | None => (self, inr false)
  end.

(** [Node.destroy_guard_condition] *)
Definition destroy_guard_condition (guard : GuardCondition) (self : EntityNode)
    : EntityNode * (entity_exn + bool) :=
  match first_with_handle guard_handle (guard_handle guard) (guards self) with
  | Some gc =>
      let self := call_native [rclpy_destroy_entity (guard_handle gc)] self in
      match list_remove gc (guards self) with
      | Some l => (set_guards l self, inr true)
      | None => (self, inl ValueError)
      end
  | None => (self, inr false)
  end.

(** [l.pop()]: the last element and the list without it. *)
Definition pop {E : Type} (l : list E) : option (E * list E) :=
  match reverse l with
  | [] => None
  | x :: r => Some (x, reverse r)
  end.

(** [while l: e = l.pop(); destroy(e)], run for at most [fuel] rounds: the
    list left and the native calls made. *)
Fixpoint drain {E : Type} (fuel : nat) (destroy : E → list NativeCall)
    (l : list E) (calls : list NativeCall) : list E * list NativeCall :=
  match fuel with
  | O => (l, calls)
  | S fuel' =>
      match pop l with
      | None => (l, calls)
      | Some (e, l') => drain fuel' destroy l' (calls ++ destroy e)%list
      end
  end.

(** [Node.destroy_node]; each loop is given as many rounds as its list is
    long. *)
Definition destroy_node (self : EntityNode) : EntityNode * bool :=
  match _handle self with
  | None => (self, true)
  | Some h =>
      let calls := native_calls self in
      let '(pubs, calls) :=
        drain (length (publishers self))
          (λ pub, [rclpy_destroy_node_entity (publisher_handle pub) (Some h)])
          (publishers self) calls in
      let '(subs, calls) :=
        drain (length (subscriptions self))
          (λ sub, [subscription_destroy sub]) (subscriptions self) calls in
      let '(clis, calls) :=
        drain (length (clients self))
          (λ cli, [rclpy_destroy_node_entity (client_handle cli) (Some h)])
          (clients self) calls in
      let '(srvs, calls) :=
        drain (length (services self))
          (λ srv, [rclpy_destroy_node_entity (service_handle srv) (Some h)])
          (services self) calls in
      let '(tmrs, calls) :=
        drain (length (timers self))
          (λ tmr, [rclpy_destroy_entity (timer_handle tmr);
                   rclpy_destroy_entity (timer_clock_handle tmr)])
          (timers self) calls in
      let '(gcs, calls) :=
        drain (length (guards self))
          (λ gc, [rclpy_destroy_entity (guard_handle gc)]) (guards self) calls in
      ({| _handle := None; publishers := pubs; subscriptions := subs;
          clients := clis; services := srvs; timers := tmrs; guards := gcs;
          waitables := waitables self;
          parameter_event_publisher_kept := false;
          native_calls := (calls ++ [rclpy_destroy_entity h])%list |},
       true)
  end.

End EntityMethods.

(** ** Concrete nodes and inputs used in the examples *)

(** A validator that refuses the empty name and names with a space. *)
Definition sample_validator (nm : string) : option (string * Z) :=
  if String.eqb nm "" then Some ("topic name must not be empty string", 0)
  else match index 0 " " nm with
       | Some i => Some ("topic name must not contain characters other than alphanumerics, '_', '~', '{', or '}'", Z.of_nat i)
       | None => None
       end.

Definition sample_clock : Clock := {| readings := λ i, 1000 + Z.of_nat i; reads := 0 |}.

(** A freshly built node: empty dictionary, no callback. *)
Definition fresh_node (allow_undeclared : bool) : Node :=
  {| _parameters := ∅;
     _parameters_callback := None;
     _allow_undeclared_parameters := allow_undeclared;
     _clock := sample_clock;
     _parameter_event_publisher := [];
     node_name := "talker";
     node_namespace := "/" |}.

Definition int_param (nm : string) (i : Z) : Param :=
  {| name := nm; value := PV_INTEGER i; descriptor := default_descriptor |}.

Definition unset_param (nm : string) : Param := Parameter_NOT_SET nm.

(** A node holding [a = 1]. *)
Definition node_a1 (allow_undeclared : bool) : Node :=
  with_parameters (fresh_node allow_undeclared) {[ "a" := int_param "a" 1 ]}.

Definition accept_all (parameter_list : list Param) : SetParametersResult :=
  {| successful := true; reason := "accepted" |}.

Definition reject_all (parameter_list : list Param) : SetParametersResult :=
  {| successful := false; reason := "rejected" |}.

(** A callback refusing every batch that mentions [nm]. *)
Definition reject_name (nm : string) (parameter_list : list Param) : SetParametersResult :=
  if existsb (λ p, String.eqb (name p) nm) parameter_list
  then {| successful := false; reason := "rejected" |}
  else SetParametersResult_ok.

(** [a = 1] declared read-only. *)
Definition read_only_a1 : Param :=
  {| name := "a"; value := PV_INTEGER 1;
     descriptor := {| description := "fixed"; read_only := true |} |}.

Definition node_read_only_a1 (allow_undeclared : bool) : Node :=
  with_parameters (fresh_node allow_undeclared) {[ "a" := read_only_a1 ]}.

Definition int_tuple (nm : string) (i : Z) : string * ParameterValue * ParameterDescriptor :=
  (nm, PV_INTEGER i, default_descriptor).

(** A fresh node whose callback refuses [b]. *)
Definition node_refusing_b : Node :=
  set_parameters_callback (reject_name "b") (fresh_node false).

(** ** Notions used in the statements *)

(** The store invariant: no stored parameter has type NOT_SET. *)
Definition store_ok (self : Node) : Prop :=
  map_Forall (λ _ p, type_ p ≠ NOT_SET) (_parameters self).

(** The last parameter of a batch carrying the name [k]. *)
Fixpoint last_entry (k : string) (l : list Param) : option Param :=
  match l with
  | [] => None
  | p :: l' =>
      match last_entry k l' with
      | Some q => Some q
      | None => if decide (name p = k) then Some p else None
      end
  end.

(** What a store holds under [k] once an accepted batch has been applied. *)
Definition after_batch (l : list Param) (store : gmap string Param) (k : string)
    : option Param :=
  match last_entry k l with
  | Some p => if decide (NOT_SET = type_ p) then None else Some p
  | None => store !! k
  end.

(** [k] has a value in the node: what [get_parameter_or] finds under it is
    not of type NOT_SET. *)
Definition had_value (self : Node) (k : string) : Prop :=
  NOT_SET ≠ type_ (get_parameter_or k None self).

(** The three classes of the entries of a batch, against the node before
    the call. *)
Definition new_of (self : Node) (l : list Param) : list Param :=
  filter (λ p, NOT_SET ≠ type_ p ∧ ¬ had_value self (name p)) l.

Definition changed_of (self : Node) (l : list Param) : list Param :=
  filter (λ p, NOT_SET ≠ type_ p ∧ had_value self (name p)) l.

Definition deleted_of (self : Node) (l : list Param) : list Param :=
  filter (λ p, NOT_SET = type_ p ∧ had_value self (name p)) l.

(** The parameter [declare_parameters] builds from a tuple. *)
Definition declared_parameter
    (namespace : string) (t : string * ParameterValue * ParameterDescriptor) : Param :=
  from_parameter_msg {| msg_name := namespace +:+ t.1.1; msg_value := t.1.2 |} t.2.

(** Two nodes that differ in their dictionary at most. *)
Definition same_frame (a b : Node) : Prop :=
  _parameters_callback a = _parameters_callback b
  ∧ _allow_undeclared_parameters a = _allow_undeclared_parameters b
  ∧ _clock a = _clock b
  ∧ _parameter_event_publisher a = _parameter_event_publisher b
  ∧ node_name a = node_name b
  ∧ node_namespace a = node_namespace b.

(** Two nodes with the same callback, flag and names: what a call may
    leave different is the dictionary, the clock and the publisher. *)
Definition same_api (a b : Node) : Prop :=
  _parameters_callback a = _parameters_callback b
  ∧ _allow_undeclared_parameters a = _allow_undeclared_parameters b
  ∧ node_name a = node_name b
  ∧ node_namespace a = node_namespace b.

(** The event [_set_parameters_atomically] starts from. *)
Definition initial_event (self : Node) : ParameterEvent :=
  {| stamp := stamp ParameterEvent_empty;
     node := fully_qualified_path self;
     new_parameters := []; changed_parameters := [];
     deleted_parameters := [] |}.

(** A computation that keeps a property of the node, however it ends. *)
Definition preserves {A : Type} (P : Node → Prop) (m : M A) : Prop :=
  ∀ self, P self → P (m self).1.

(** Every parameter is stored under its own name. *)
Definition keyed_by_name (self : Node) : Prop :=
  map_Forall (λ k p, name p = k) (_parameters self).

(** The entries of a list the callback of [self] accepts when it is given
    them one at a time. *)
Definition accepted_singly (self : Node) (l : list Param) : list Param :=
  filter (λ p, successful (callback_result self [p]) = true) l.

(** [b] is [a] after some events were published: the messages published
    before are still there, in order, and the clock was read once per new
    message. *)
Definition published_more (a b : Node) : Prop :=
  ∃ evs,
    _parameter_event_publisher b = (_parameter_event_publisher a ++ evs)%list
    ∧ readings (_clock b) = readings (_clock a)
    ∧ reads (_clock b) = (reads (_clock a) + length evs)%nat.

(** A computation that, however it ends, has at most published more. *)
Definition only_publishes {A : Type} (m : M A) : Prop :=
  ∀ self, published_more self (m self).1.

(** The event a declare publishes for its [i]-th tuple. *)
Definition declared_event (self : Node) (ns : string) (i : nat)
    (t : string * ParameterValue * ParameterDescriptor) : ParameterEvent :=
  {| stamp := readings (_clock self) (reads (_clock self) + i);
     node := fully_qualified_path self;
     new_parameters := [to_parameter_msg (declared_parameter ns t)];
     changed_parameters := [];
     deleted_parameters := [] |}.

(** What it is for [destroy], one of the destroy methods that search by
    handle, to destroy and remove the first entity of its list whose handle
    equals that of its argument, and to do nothing when there is none.
    [get] and [set] read and write the list, [calls] gives the native calls
    made for the entity found. *)
Definition removes_first_match `{EntityTypes} {E : Type}
    (handle_of : E → Handle)
    (get : EntityNode → list E) (set : list E → EntityNode → EntityNode)
    (calls : E → EntityNode → list NativeCall)
    (destroy : E → EntityNode → EntityNode * (entity_exn + bool)) : Prop :=
  ∀ (x : E) (self : EntityNode),
    (∀ pre e post,
       get self = (pre ++ e :: post)%list →
       (∀ y, y ∈ pre → handle_of y ≠ handle_of x) →
       handle_of e = handle_of x →
       destroy x self = (set (pre ++ post)%list (call_native (calls e self) self), inr true))
    ∧ ((∀ y, y ∈ get self → handle_of y ≠ handle_of x) →
       destroy x self = (self, inr false)).

(** Entities for the examples: an object is a number, or a number with its
    handles; handles are numbers. *)
Definition sample_entity_types : EntityTypes :=
  {| Handle := nat;
     Publisher := nat * nat;
     Subscription := nat;
     Client := nat * nat;
     Service := nat * nat;
     WallTimer := nat * (nat * nat);
     GuardCondition := nat * nat;
     Waitable := nat;
     Handle_eq_dec := _;
     Publisher_eq_dec := _;
     Subscription_eq_dec := _;
     Client_eq_dec := _;
     Service_eq_dec := _;
     WallTimer_eq_dec := _;
     GuardCondition_eq_dec := _;
     Waitable_eq_dec := _;
     publisher_handle := snd;
     client_handle := snd;
     service_handle := snd;
     timer_handle := λ t, t.2.1;
     timer_clock_handle := λ t, t.2.2;
     guard_handle := snd |}.

(** A node with three publishers, two of them on the same handle. *)
Definition sample_entity_node : @EntityNode sample_entity_types :=
  @mkEntityNode sample_entity_types
    (Some 1%nat)
    [(10, 100); (11, 101); (12, 101)]%nat
    [20; 21]%nat
    [(30, 300)]%nat
    []
    [(40, (400, 401))]%nat
    [(50, 500)]%nat
    [60; 61; 60]%nat
    true
    [].

(** * Properties *)

(** ** The monad *)

Lemma preserves_ret {A : Type} (P : Node → Prop) (a : A) : preserves P (ret a).
Proof. intros self H. exact H. Qed.

Lemma preserves_raise {A : Type} (P : Node → Prop) (e : exn) : preserves P (@raise A e).
Proof. intros self H. exact H. Qed.

Lemma preserves_bind {A B : Type} (P : Node → Prop) (m : M A) (k : A → M B) :
  preserves P m → (∀ a, preserves P (k a)) → preserves P (bind m k).
Proof.
  intros Hm Hk self H. unfold bind.
  specialize (Hm self H). destruct (m self) as [self' [e | a]]; simpl in *.
  - exact Hm.
  - apply Hk, Hm.
Qed.

Lemma preserves_mapM {A B : Type} (P : Node → Prop) (f : A → M B) (l : list A) :
  (∀ a, preserves P (f a)) → preserves P (mapM f l).
Proof.
  intros Hf. induction l as [| a l IH]; simpl.
  - apply preserves_ret.
  - apply preserves_bind; [apply Hf |]. intros b.
    apply preserves_bind; [exact IH |]. intros bs. apply preserves_ret.
Qed.

(** ** One pass of the loop over a batch *)

Lemma same_frame_refl (self : Node) : same_frame self self.
Proof. by unfold same_frame. Qed.

Lemma same_frame_trans (a b c : Node) : same_frame a b → same_frame b c → same_frame a c.
Proof. unfold same_frame. intros H1 H2. destruct_and!. repeat split; congruence. Qed.

Lemma same_frame_with_parameters (self : Node) (ps : gmap string Param) :
  same_frame (with_parameters self ps) self.
Proof. by unfold same_frame. Qed.

Lemma set_one_frame (p : Param) (self : Node) (ev : ParameterEvent) :
  same_frame (set_one p (self, ev)).1 self
  ∧ node (set_one p (self, ev)).2 = node ev
  ∧ stamp (set_one p (self, ev)).2 = stamp ev.
Proof.
  unfold set_one, same_frame.
  repeat case_decide; destruct (has_parameter (name p) self); simpl; tauto.
Qed.

Lemma set_each_frame (l : list Param) (self : Node) (ev : ParameterEvent) :
  same_frame (set_each l (self, ev)).1 self
  ∧ node (set_each l (self, ev)).2 = node ev
  ∧ stamp (set_each l (self, ev)).2 = stamp ev.
Proof.
  revert self ev. induction l as [| p l IH]; intros self ev.
  - simpl. auto using same_frame_refl.
  - change (set_each (p :: l) (self, ev)) with (set_each l (set_one p (self, ev))).
    destruct (set_one_frame p self ev) as (F1 & N1 & S1).
    destruct (set_one p (self, ev)) as [self1 ev1].
    destruct (IH self1 ev1) as (F2 & N2 & S2). simpl in *.
    split; [by eapply same_frame_trans |]. split; congruence.
Qed.

Lemma set_one_lookup (p : Param) (self : Node) (ev : ParameterEvent) (k : string) :
  _parameters (set_one p (self, ev)).1 !! k =
    if decide (name p = k)
    then (if decide (NOT_SET = type_ p) then None else Some p)
    else _parameters self !! k.
Proof.
  unfold set_one, has_parameter. simpl.
  destruct (decide (NOT_SET = type_ p)) as [Hns | Hset]; simpl.
  - destruct (_parameters self !! name p) eqn:Hp; simpl.
    + destruct (decide (name p = k)) as [-> | Hne].
      * apply lookup_delete_eq.
      * by apply lookup_delete_ne.
    + destruct (decide (name p = k)) as [<- | Hne]; done.
  - destruct (decide (name p = k)) as [-> | Hne].
    + apply lookup_insert_eq.
    + by apply lookup_insert_ne.
Qed.

Lemma set_each_lookup (l : list Param) (self : Node) (ev : ParameterEvent) (k : string) :
  _parameters (set_each l (self, ev)).1 !! k = after_batch l (_parameters self) k.
Proof.
  revert self ev. induction l as [| p l IH]; intros self ev.
  - reflexivity.
  - change (set_each (p :: l) (self, ev)) with (set_each l (set_one p (self, ev))).
    pose proof (set_one_lookup p self ev k) as H1.
    destruct (set_one p (self, ev)) as [self1 ev1]. simpl in H1.
    rewrite IH. unfold after_batch. simpl.
    destruct (last_entry k l) as [q |]; [reflexivity |].
    rewrite H1. by destruct (decide (name p = k)).
Qed.

(** ** The atomic-set primitive *)

Lemma callback_result_same (a b : Node) (l : list Param) :
  _parameters_callback a = _parameters_callback b →
  callback_result a l = callback_result b l.
Proof. unfold callback_result. by intros ->. Qed.

Lemma atomically_rejected (l : list Param) (self : Node) :
  successful (callback_result self l) = false →
  _set_parameters_atomically l self = (self, inr (callback_result self l)).
Proof. intros H. unfold _set_parameters_atomically. by rewrite H. Qed.

Lemma atomically_accepted (l : list Param) (self : Node) :
  successful (callback_result self l) = true →
  _set_parameters_atomically l self =
    (stamp_and_publish (set_each l (self, initial_event self)).1
                       (set_each l (self, initial_event self)).2,
     inr (callback_result self l)).
Proof.
  intros H. unfold _set_parameters_atomically. rewrite H.
  fold (initial_event self).
  by destruct (set_each l (self, initial_event self)).
Qed.

Lemma atomically_returns (l : list Param) (self : Node) :
  (_set_parameters_atomically l self).2 = inr (callback_result self l).
Proof.
  destruct (successful (callback_result self l)) eqn:H.
  - by rewrite atomically_accepted.
  - by rewrite atomically_rejected.
Qed.

Lemma atomically_same_api (l : list Param) (self : Node) :
  same_api (_set_parameters_atomically l self).1 self.
Proof.
  destruct (successful (callback_result self l)) eqn:H.
  - rewrite atomically_accepted by done.
    destruct (set_each_frame l self (initial_event self)) as (F & _ & _).
    unfold same_frame in F. unfold same_api, stamp_and_publish. simpl. tauto.
  - rewrite atomically_rejected by done. by unfold same_api.
Qed.

Lemma atomically_lookup (l : list Param) (self : Node) (k : string) :
  successful (callback_result self l) = true →
  _parameters (_set_parameters_atomically l self).1 !! k =
    after_batch l (_parameters self) k.
Proof.
  intros H. rewrite atomically_accepted by done.
  unfold stamp_and_publish. simpl. apply set_each_lookup.
Qed.

Lemma atomically_published (l : list Param) (self : Node) :
  successful (callback_result self l) = true →
  let st := set_each l (self, initial_event self) in
  _parameter_event_publisher (_set_parameters_atomically l self).1 =
    (_parameter_event_publisher self ++
     [ {| stamp := readings (_clock self) (reads (_clock self));
          node := fully_qualified_path self;
          new_parameters := new_parameters st.2;
          changed_parameters := changed_parameters st.2;
          deleted_parameters := deleted_parameters st.2 |} ])%list.
Proof.
  intros H st. rewrite atomically_accepted by done. fold st.
  destruct (set_each_frame l self (initial_event self)) as (F & N & _).
  fold st in F, N. unfold same_frame in F. destruct_and!.
  unfold stamp_and_publish, now. simpl. rewrite N. simpl. congruence.
Qed.

(** ** The store invariant *)

Lemma store_ok_lookup (self : Node) (k : string) (p : Param) :
  store_ok self → _parameters self !! k = Some p → type_ p ≠ NOT_SET.
Proof. intros H Hk. exact (H k p Hk). Qed.

Lemma store_ok_intro (self : Node) :
  (∀ k p, _parameters self !! k = Some p → type_ p ≠ NOT_SET) → store_ok self.
Proof. intros H k p Hk. by eapply H. Qed.

Lemma store_ok_after_batch (l : list Param) (self self' : Node) :
  store_ok self →
  (∀ k, _parameters self' !! k = after_batch l (_parameters self) k) →
  store_ok self'.
Proof.
  intros Hok Hl. apply store_ok_intro. intros k p. rewrite Hl. unfold after_batch.
  destruct (last_entry k l) as [q |].
  - case_decide; [done |]. intros [= <-]. congruence.
  - by apply store_ok_lookup.
Qed.

Lemma atomically_store_ok (l : list Param) : preserves store_ok (_set_parameters_atomically l).
Proof.
  intros self Hok.
  destruct (successful (callback_result self l)) eqn:H.
  - eapply store_ok_after_batch; [exact Hok |]. intros k. by apply atomically_lookup.
  - by rewrite atomically_rejected.
Qed.

Lemma set_parameters_atomically_store_ok (l : list Param) :
  preserves store_ok (set_parameters_atomically l).
Proof.
  intros self Hok. unfold set_parameters_atomically.
  destruct (negb _ && _); [exact Hok | by apply atomically_store_ok].
Qed.

Lemma loop_preserves (P : Node → Prop) (f : list Param → M SetParametersResult)
    (r : bool) (l : list Param) (acc : list SetParametersResult) :
  (∀ b, preserves P (f b)) → preserves P (_set_parameters_loop f r l acc).
Proof.
  intros Hf. revert acc. induction l as [| p l IH]; intros acc; simpl.
  - apply preserves_ret.
  - apply preserves_bind; [apply Hf |]. intros res.
    destruct (r && negb (successful res)); [apply preserves_raise | apply IH].
Qed.

Lemma undeclare_store_ok (k : string) : preserves store_ok (undeclare_parameter k).
Proof.
  intros self Hok. unfold undeclare_parameter.
  destruct (_parameters self !! k) as [p |] eqn:Hk; [| exact Hok].
  destruct (read_only (descriptor p)); [exact Hok |].
  simpl. apply store_ok_intro. intros k' q. simpl.
  intros Hq. apply lookup_delete_Some in Hq as [_ Hq]. by eapply store_ok_lookup.
Qed.

Lemma get_parameter_unchanged (k : string) (self : Node) : (get_parameter k self).1 = self.
Proof.
  unfold get_parameter. destruct (_parameters self !! k); [done |].
  by destruct (_allow_undeclared_parameters self).
Qed.

Lemma get_parameters_unchanged (names : list string) (self : Node) :
  (get_parameters names self).1 = self.
Proof.
  unfold get_parameters. induction names as [| k names IH]; simpl; [done |].
  unfold bind at 1. pose proof (get_parameter_unchanged k self) as Hk.
  destruct (get_parameter k self) as [s1 [e | p]]; simpl in Hk; subst s1; [done |].
  unfold bind. destruct (mapM get_parameter names self) as [s2 [e | ps]]; simpl in *; by subst.
Qed.

Lemma validate_parameter_name_preserves
    (validator : string → option (string * Z)) (P : Node → Prop) (nm : string) :
  preserves P (validate_parameter_name validator nm).
Proof.
  unfold validate_parameter_name. destruct (validator nm) as [[msg i] |].
  - apply preserves_raise.
  - apply preserves_ret.
Qed.

Lemma build_parameter_list_preserves
    (validator : string → option (string * Z)) (P : Node → Prop)
    (ns : string) (tuples : list (string * ParameterValue * ParameterDescriptor)) :
  preserves P (build_parameter_list validator ns tuples).
Proof.
  induction tuples as [| t tuples IH]; simpl.
  - apply preserves_ret.
  - apply preserves_bind; [apply validate_parameter_name_preserves |]. intros _.
    apply preserves_bind; [exact IH |]. intros ps. apply preserves_ret.
Qed.

Lemma get_parameters_preserves (P : Node → Prop) (names : list string) :
  preserves P (get_parameters names).
Proof. intros self H. by rewrite get_parameters_unchanged. Qed.

Lemma declare_parameters_preserves
    (validator : string → option (string * Z)) (P : Node → Prop)
    (ns : string) (tuples : list (string * ParameterValue * ParameterDescriptor)) :
  (∀ l, preserves P (_set_parameters_atomically l)) →
  preserves P (declare_parameters validator ns tuples).
Proof.
  intros Hset. unfold declare_parameters.
  apply preserves_bind; [apply build_parameter_list_preserves |].
  intros pl self H.
  destruct (any_gen _).1; [exact H |].
  revert self H. apply preserves_bind.
  - unfold _set_parameters. by apply loop_preserves.
  - intros _. apply get_parameters_preserves.
Qed.

(** ** Rejected batches (C1) *)

(** C1.  When a callback is registered and answers a batch with an
    unsuccessful result, the atomic-set primitive returns the very node it
    was given (so every stored parameter, the clock and the list of published
    events are what they were) together with the callback's result; the
    public [set_parameters_atomically] leaves the node unchanged as well and,
    when it returns, returns that same result. *)
Theorem rejected_batch_changes_nothing
    (parameter_list : list Param) (self : Node)
    (callback : list Param → SetParametersResult) :
  _parameters_callback self = Some callback →
  successful (callback parameter_list) = false →
  _set_parameters_atomically parameter_list self = (self, inr (callback parameter_list))
  ∧ (set_parameters_atomically parameter_list self).1 = self
  ∧ (∀ r, (set_parameters_atomically parameter_list self).2 = inr r →
          r = callback parameter_list).
Proof.
  intros Hcb Hrej.
  assert (Hres : callback_result self parameter_list = callback parameter_list).
  { unfold callback_result. by rewrite Hcb. }
  assert (H : _set_parameters_atomically parameter_list self
              = (self, inr (callback parameter_list))).
  { rewrite atomically_rejected; rewrite Hres; done. }
  split; [exact H |].
  unfold set_parameters_atomically.
  destruct (negb _ && _); simpl.
  - split; [done |]. intros r [=].
  - rewrite H. simpl. split; [done |]. by intros r [= <-].
Qed.

Lemma rejected_batch_changes_nothing_witness :
  let self := set_parameters_callback reject_all (node_a1 true) in
  let batch := [int_param "a" 2; unset_param "b"] in
  _set_parameters_atomically batch self = (self, inr (reject_all batch))
  ∧ (set_parameters_atomically batch self).1 = self
  ∧ (∀ r, (set_parameters_atomically batch self).2 = inr r → r = reject_all batch).
Proof.
  intros self batch.
  apply (rejected_batch_changes_nothing batch self reject_all); reflexivity.
Defined.

(** ** The empty batch (C10) *)

(** C10.  [set_parameters_atomically] on the empty list, when no callback is
    registered or the registered one accepts the empty batch, returns a
    successful result, leaves the dictionary as it was and publishes exactly
    one event, whose three lists are empty, stamped with the clock reading
    and addressed to the node path. *)
Theorem empty_batch_publishes_one_empty_event (self : Node) :
  successful (callback_result self []) = true →
  ∃ self' result,
    set_parameters_atomically [] self = (self', inr result)
    ∧ successful result = true
    ∧ result = callback_result self []
    ∧ _parameters self' = _parameters self
    ∧ _parameter_event_publisher self' =
        (_parameter_event_publisher self ++
         [ {| stamp := readings (_clock self) (reads (_clock self));
              node := fully_qualified_path self;
              new_parameters := [];
              changed_parameters := [];
              deleted_parameters := [] |} ])%list.
Proof.
  intros Hacc.
  exists (stamp_and_publish self (initial_event self)), (callback_result self []).
  split.
  - unfold set_parameters_atomically. simpl. rewrite andb_false_r.
    by rewrite atomically_accepted.
  - repeat split; done.
Qed.

Lemma empty_batch_publishes_one_empty_event_witness :
  ∃ self' result,
    set_parameters_atomically [] (node_a1 false) = (self', inr result)
    ∧ successful result = true
    ∧ result = callback_result (node_a1 false) []
    ∧ _parameters self' = _parameters (node_a1 false)
    ∧ _parameter_event_publisher self' =
        [ {| stamp := 1000; node := "/talker";
             new_parameters := []; changed_parameters := [];
             deleted_parameters := [] |} ].
Proof.
  apply (empty_batch_publishes_one_empty_event (node_a1 false)). reflexivity.
Defined.

(** ** Undeclaring (C8) *)

(** C8.  [undeclare_parameter] on a name whose stored parameter is marked
    read-only raises [ParameterImmutableException] and returns the node
    unchanged, the parameter still stored; on a name absent from the
    dictionary it raises [ParameterNotDeclaredException]. *)
Theorem undeclare_read_only_or_absent (self : Node) (k : string) :
  (∀ p, _parameters self !! k = Some p →
        read_only (descriptor p) = true →
        undeclare_parameter k self = (self, inl (ParameterImmutableException k))
        ∧ _parameters (undeclare_parameter k self).1 !! k = Some p)
  ∧ (_parameters self !! k = None →
     undeclare_parameter k self = (self, inl (ParameterNotDeclaredException (ArgName k)))).
Proof.
  split.
  - intros p Hk Hro. unfold undeclare_parameter. rewrite Hk, Hro. by simpl.
  - intros Hk. unfold undeclare_parameter. by rewrite Hk.
Qed.

Lemma undeclare_read_only_or_absent_witness :
  (undeclare_parameter "a" (node_read_only_a1 false)
     = (node_read_only_a1 false, inl (ParameterImmutableException "a"))
   ∧ _parameters (undeclare_parameter "a" (node_read_only_a1 false)).1 !! "a"
     = Some read_only_a1)
  ∧ undeclare_parameter "b" (node_read_only_a1 false)
     = (node_read_only_a1 false, inl (ParameterNotDeclaredException (ArgName "b"))).
Proof.
  split.
  - apply (proj1 (undeclare_read_only_or_absent (node_read_only_a1 false) "a"));
      reflexivity.
  - apply (proj2 (undeclare_read_only_or_absent (node_read_only_a1 false) "b"));
      reflexivity.
Defined.

(** ** The store invariant over the public operations *)

Lemma store_ok_fresh (allow_undeclared : bool) : store_ok (fresh_node allow_undeclared).
Proof. apply map_Forall_empty. Qed.

Lemma set_parameters_store_ok (l : list Param) : preserves store_ok (set_parameters l).
Proof.
  unfold set_parameters, _set_parameters.
  apply loop_preserves. apply set_parameters_atomically_store_ok.
Qed.

Lemma after_batch_not_set (l : list Param) (store : gmap string Param) (k : string) (p : Param) :
  last_entry k l = Some p → type_ p = NOT_SET → after_batch l store k = None.
Proof.
  intros Hl Ht. unfold after_batch. rewrite Hl. case_decide; [done | congruence].
Qed.

(** ** The public atomic set on declared names *)

Lemma set_parameters_atomically_declared (l : list Param) (self : Node) :
  (∀ p, p ∈ l → is_Some (_parameters self !! name p)) →
  set_parameters_atomically l self = _set_parameters_atomically l self.
Proof.
  intros Hin. unfold set_parameters_atomically.
  assert (H : (any_gen (map (λ parameter, negb (has_parameter (name parameter) self)) l)).1
              = false).
  { induction l as [| q l IH]; [done |]. simpl.
    destruct (Hin q) as [x Hx]; [left |].
    unfold has_parameter at 1. rewrite Hx. simpl. apply IH.
    intros p Hp. apply Hin. by right. }
  rewrite H. by rewrite andb_false_r.
Qed.

Lemma set_parameters_single (p : Param) (self : Node) :
  set_parameters [p] self =
    match set_parameters_atomically [p] self with
    | (self', inl e) => (self', inl e)
    | (self', inr result) => (self', inr [result])
    end.
Proof.
  unfold set_parameters, _set_parameters. simpl. unfold bind.
  by destruct (set_parameters_atomically [p] self) as [self' [e | r]].
Qed.

(** ** Classification of an accepted batch (C2) *)

Lemma filter_agree {A : Type} (P1 P2 : A → Prop)
    `{!∀ x, Decision (P1 x), !∀ x, Decision (P2 x)} (l : list A) :
  (∀ x, x ∈ l → P1 x ↔ P2 x) → filter P1 l = filter P2 l.
Proof.
  induction l as [| a l IH]; intros Hag; [done |].
  assert (Ha : P1 a ↔ P2 a) by (apply Hag; left).
  assert (Hl : filter P1 l = filter P2 l).
  { apply IH. intros x Hx. apply Hag. by right. }
  destruct (decide (P1 a)).
  - rewrite !filter_cons_True by tauto. by rewrite Hl.
  - rewrite !filter_cons_False by tauto. exact Hl.
Qed.

Lemma had_value_same (a b : Node) (k : string) :
  _parameters a !! k = _parameters b !! k → had_value a k ↔ had_value b k.
Proof. unfold had_value, get_parameter_or. by intros ->. Qed.

Lemma had_value_present (self : Node) (k : string) :
  store_ok self → had_value self k ↔ is_Some (_parameters self !! k).
Proof.
  intros Hok. unfold had_value, get_parameter_or.
  destruct (_parameters self !! k) as [p |] eqn:Hk; simpl.
  - split; [by eexists |]. intros _ Heq. by apply (store_ok_lookup self k p).
  - split; [done |]. by intros [x [=]].
Qed.

Lemma names_unique (l : list Param) (p q : Param) :
  NoDup (name <$> l) → p ∈ l → q ∈ l → name p = name q → p = q.
Proof.
  induction l as [| a l IH]; intros Hnd Hp Hq Hname.
  - by apply not_elem_of_nil in Hp.
  - rewrite fmap_cons in Hnd. apply NoDup_cons in Hnd as [Ha Hnd].
    apply elem_of_cons in Hp as [-> | Hp]; apply elem_of_cons in Hq as [-> | Hq].
    + done.
    + exfalso. apply Ha. rewrite Hname. by apply list_elem_of_fmap_2.
    + exfalso. apply Ha. rewrite <- Hname. by apply list_elem_of_fmap_2.
    + by apply IH.
Qed.

Lemma set_one_events (p : Param) (self : Node) (ev : ParameterEvent) :
  new_parameters (set_one p (self, ev)).2
    = (new_parameters ev ++ (to_parameter_msg <$> new_of self [p]))%list
  ∧ changed_parameters (set_one p (self, ev)).2
    = (changed_parameters ev ++ (to_parameter_msg <$> changed_of self [p]))%list
  ∧ deleted_parameters (set_one p (self, ev)).2
    = (deleted_parameters ev ++ (to_parameter_msg <$> deleted_of self [p]))%list.
Proof.
  unfold new_of, changed_of, deleted_of, set_one, had_value.
  rewrite !filter_cons, !filter_nil.
  destruct (decide (NOT_SET = type_ p)) as [Hns | Hset];
    destruct (decide (NOT_SET = type_ (get_parameter_or (name p) None self))) as [Hx | Hx];
    repeat case_decide; try (exfalso; tauto); simpl; rewrite ?app_nil_r; done.
Qed.

Lemma classes_cons (p : Param) (l : list Param) (self : Node) :
  new_of self (p :: l) = (new_of self [p] ++ new_of self l)%list
  ∧ changed_of self (p :: l) = (changed_of self [p] ++ changed_of self l)%list
  ∧ deleted_of self (p :: l) = (deleted_of self [p] ++ deleted_of self l)%list.
Proof.
  unfold new_of, changed_of, deleted_of.
  repeat split; by rewrite <- filter_app.
Qed.

Lemma classes_agree (l : list Param) (a b : Node) :
  (∀ q, q ∈ l → _parameters a !! name q = _parameters b !! name q) →
  new_of a l = new_of b l ∧ changed_of a l = changed_of b l
  ∧ deleted_of a l = deleted_of b l.
Proof.
  intros Hag. unfold new_of, changed_of, deleted_of.
  repeat split; apply filter_agree; intros q Hq;
    pose proof (had_value_same a b (name q) (Hag q Hq)); tauto.
Qed.

Lemma set_each_events (l : list Param) (self : Node) (ev : ParameterEvent) :
  NoDup (name <$> l) →
  new_parameters (set_each l (self, ev)).2
    = (new_parameters ev ++ (to_parameter_msg <$> new_of self l))%list
  ∧ changed_parameters (set_each l (self, ev)).2
    = (changed_parameters ev ++ (to_parameter_msg <$> changed_of self l))%list
  ∧ deleted_parameters (set_each l (self, ev)).2
    = (deleted_parameters ev ++ (to_parameter_msg <$> deleted_of self l))%list.
Proof.
  revert self ev. induction l as [| p l IH]; intros self ev Hnd.
  - simpl. by rewrite !app_nil_r.
  - change (set_each (p :: l) (self, ev)) with (set_each l (set_one p (self, ev))).
    rewrite fmap_cons in Hnd. apply NoDup_cons in Hnd as [Hp Hnd].
    destruct (set_one_events p self ev) as (E1 & E2 & E3).
    pose proof (set_one_lookup p self ev) as Hlk.
    destruct (set_one p (self, ev)) as [self1 ev1]. simpl in E1, E2, E3, Hlk.
    destruct (IH self1 ev1 Hnd) as (I1 & I2 & I3).
    destruct (classes_agree l self1 self) as (A1 & A2 & A3).
    { intros q Hq. rewrite Hlk. rewrite decide_False; [done |].
      intros Heq. apply Hp. rewrite Heq. by apply list_elem_of_fmap_2. }
    destruct (classes_cons p l self) as (C1 & C2 & C3).
    rewrite I1, I2, I3, E1, E2, E3, A1, A2, A3, C1, C2, C3.
    by rewrite !fmap_app, !app_assoc.
Qed.

Lemma last_entry_Some (k : string) (l : list Param) (p : Param) :
  last_entry k l = Some p → p ∈ l ∧ name p = k.
Proof.
  induction l as [| a l IH]; simpl; [done |].
  destruct (last_entry k l) as [q |].
  - intros [= <-]. destruct IH as [Hin Hn]; [done |]. split; [by right | done].
  - case_decide; [| done]. intros [= <-]. split; [left | done].
Qed.

Lemma last_entry_None (k : string) (l : list Param) :
  last_entry k l = None ↔ k ∉ name <$> l.
Proof.
  induction l as [| a l IH]; simpl.
  - split; [intros _; apply not_elem_of_nil | done].
  - rewrite not_elem_of_cons. destruct (last_entry k l) as [q |].
    + split; [done |]. intros [_ Hk]. by apply IH in Hk.
    + case_decide; split; try done.
      * intros [Hne _]. by subst.
      * intros _. split; [congruence | by apply IH].
Qed.

Lemma last_entry_is_Some (k : string) (l : list Param) :
  k ∈ name <$> l → is_Some (last_entry k l).
Proof.
  intros Hk. destruct (last_entry k l) eqn:H; [by eexists |].
  by apply last_entry_None in H.
Qed.

Lemma last_entry_unique (l : list Param) (p : Param) :
  p ∈ l → (∀ q, q ∈ l → name q = name p → q = p) → last_entry (name p) l = Some p.
Proof.
  intros Hp Huniq.
  destruct (last_entry_is_Some (name p) l) as [q Hq]; [by apply list_elem_of_fmap_2 |].
  rewrite Hq. f_equal. apply last_entry_Some in Hq as [Hin Hn]. by apply Huniq.
Qed.

Lemma after_batch_outside (l : list Param) (store : gmap string Param) (k : string) :
  k ∉ name <$> l → after_batch l store k = store !! k.
Proof. intros Hk. unfold after_batch. by rewrite (proj2 (last_entry_None k l)). Qed.

Lemma after_batch_unique (l : list Param) (store : gmap string Param) (p : Param) :
  p ∈ l → (∀ q, q ∈ l → name q = name p → q = p) →
  after_batch l store (name p) = if decide (NOT_SET = type_ p) then None else Some p.
Proof. intros Hp Hu. unfold after_batch. by rewrite last_entry_unique. Qed.

(** C2, as amended.  For an accepted batch whose names are pairwise
    distinct, the primitive returns the callback's result and publishes
    exactly one event, stamped with the clock reading and addressed to the
    node path.  Its lists are the batch entries classified against the node
    before the call: [new_parameters] the entries with a value for a name
    that had none, [changed_parameters] those with a value for a name that
    had one, [deleted_parameters] the NOT_SET entries for a name that had a
    value.  Every entry with a value is stored, every NOT_SET entry leaves
    its name absent, other names are untouched.  No name is in two lists,
    and a name is in one of them exactly when the batch has an entry for it
    that is not a NOT_SET entry for a name without value. *)
Theorem accepted_batch_is_classified (batch : list Param) (self : Node) :
  successful (callback_result self batch) = true →
  NoDup (name <$> batch) →
  ∃ self' ev,
    _set_parameters_atomically batch self = (self', inr (callback_result self batch))
    ∧ _parameter_event_publisher self' = (_parameter_event_publisher self ++ [ev])%list
    ∧ stamp ev = readings (_clock self) (reads (_clock self))
    ∧ node ev = fully_qualified_path self
    ∧ new_parameters ev = to_parameter_msg <$> new_of self batch
    ∧ changed_parameters ev = to_parameter_msg <$> changed_of self batch
    ∧ deleted_parameters ev = to_parameter_msg <$> deleted_of self batch
    ∧ (∀ p, p ∈ batch →
         _parameters self' !! name p = if decide (NOT_SET = type_ p) then None else Some p)
    ∧ (∀ k, k ∉ name <$> batch → _parameters self' !! k = _parameters self !! k)
    ∧ (∀ k, ¬ (k ∈ msg_name <$> new_parameters ev
               ∧ k ∈ msg_name <$> changed_parameters ev))
    ∧ (∀ k, ¬ (k ∈ msg_name <$> new_parameters ev
               ∧ k ∈ msg_name <$> deleted_parameters ev))
    ∧ (∀ k, ¬ (k ∈ msg_name <$> changed_parameters ev
               ∧ k ∈ msg_name <$> deleted_parameters ev))
    ∧ (∀ k, k ∈ msg_name <$> (new_parameters ev ++ changed_parameters ev
                               ++ deleted_parameters ev)%list
            ↔ ∃ p, p ∈ batch ∧ name p = k ∧ (NOT_SET ≠ type_ p ∨ had_value self k)).
Proof.
  intros Hacc Hnd.
  pose proof (atomically_published batch self Hacc) as Hpub. simpl in Hpub.
  destruct (set_each_events batch self (initial_event self) Hnd) as (E1 & E2 & E3).
  simpl in E1, E2, E3. rewrite E1, E2, E3 in Hpub. clear E1 E2 E3.
  pose proof (atomically_returns batch self) as Hret.
  pose proof (atomically_lookup batch self) as Hlk.
  destruct (_set_parameters_atomically batch self) as [self' r]. simpl in *. subst r.
  eexists self', _. split; [reflexivity |]. split; [exact Hpub |]. simpl.
  assert (Hin : ∀ (P : Param → Prop) `{!∀ x, Decision (P x)} k,
            k ∈ msg_name <$> (to_parameter_msg <$> filter P batch)
            ↔ ∃ p, p ∈ batch ∧ name p = k ∧ P p).
  { intros P HP k. rewrite <- list_fmap_compose. rewrite list_elem_of_fmap. split.
    - intros (p & -> & Hp). apply list_elem_of_filter in Hp as [HPp Hp]. by exists p.
    - intros (p & Hp & <- & HPp). exists p. split; [done |]. by apply list_elem_of_filter. }
  repeat split.
  - intros p Hp. rewrite Hlk by done. apply after_batch_unique; [done |].
    intros q Hq Hn. by apply (names_unique batch).
  - intros k Hk. rewrite Hlk by done. by apply after_batch_outside.
  - intros k [Hn Hc]. unfold new_of in Hn. unfold changed_of in Hc.
    apply Hin in Hn as (p & _ & <- & _ & Hnot).
    apply Hin in Hc as (q & _ & Hq & _ & Hhad). rewrite Hq in Hhad. tauto.
  - intros k [Hn Hd]. unfold new_of in Hn. unfold deleted_of in Hd.
    apply Hin in Hn as (p & _ & <- & _ & Hnot).
    apply Hin in Hd as (q & _ & Hq & _ & Hhad). rewrite Hq in Hhad. tauto.
  - intros k [Hc Hd]. unfold changed_of in Hc. unfold deleted_of in Hd.
    apply Hin in Hc as (p & Hp & <- & Hset & _).
    apply Hin in Hd as (q & Hq & Hqn & Hns & _).
    assert (q = p) by (by apply (names_unique batch)). subst q. tauto.
  - rewrite !fmap_app, !elem_of_app. unfold new_of, changed_of, deleted_of.
    rewrite !Hin. intros [H | [H | H]]; destruct H as (p & Hp & Hn & H1 & H2);
      exists p; subst k; tauto.
  - intros (p & Hp & Hn & Hor).
    rewrite !fmap_app, !elem_of_app. unfold new_of, changed_of, deleted_of.
    rewrite !Hin. subst k.
    destruct (decide (NOT_SET = type_ p)) as [Hns | Hset];
      destruct (decide (had_value self (name p))) as [Hhad | Hnot].
    + right; right. by exists p.
    + tauto.
    + right; left. by exists p.
    + left. by exists p.
Qed.

Lemma accepted_batch_is_classified_witness :
  ∃ self' ev,
    _set_parameters_atomically
      [int_param "a" 2; int_param "b" 3; unset_param "c"] (node_a1 true)
      = (self', inr SetParametersResult_ok)
    ∧ _parameter_event_publisher self' = [ev]
    ∧ stamp ev = 1000
    ∧ node ev = "/talker"
    ∧ new_parameters ev = [to_parameter_msg (int_param "b" 3)]
    ∧ changed_parameters ev = [to_parameter_msg (int_param "a" 2)]
    ∧ deleted_parameters ev = [].
Proof.
  destruct (accepted_batch_is_classified
              [int_param "a" 2; int_param "b" 3; unset_param "c"] (node_a1 true))
    as (self' & ev & Hcall & Hpub & Hstamp & Hnode & Hnew & Hchg & Hdel & _).
  - reflexivity.
  - by apply (bool_decide_unpack _); vm_compute.
  - exists self', ev. repeat split; assumption.
Defined.

(** C2 as stated fails on a batch that names a parameter twice: the second
    entry is classified against the dictionary the first one has already
    changed, so [a] is reported both as new and as changed. *)
Lemma repeated_name_is_new_and_changed :
  successful (callback_result (fresh_node true) [int_param "a" 1; int_param "a" 1]) = true
  ∧ ∃ self' ev,
      _set_parameters_atomically [int_param "a" 1; int_param "a" 1] (fresh_node true)
        = (self', inr SetParametersResult_ok)
      ∧ _parameter_event_publisher self' = [ev]
      ∧ new_parameters ev = [to_parameter_msg (int_param "a" 1)]
      ∧ changed_parameters ev = [to_parameter_msg (int_param "a" 1)]
      ∧ "a" ∈ msg_name <$> new_parameters ev
      ∧ "a" ∈ msg_name <$> changed_parameters ev.
Proof.
  split; [reflexivity |].
  eexists _, _. split; [reflexivity |]. split; [reflexivity |].
  split; [reflexivity |]. split; [reflexivity |].
  split; simpl; apply list_elem_of_singleton; reflexivity.
Qed.

(** ** The per-element loop *)

Lemma loop_acc (f : list Param → M SetParametersResult) (r : bool)
    (l : list Param) (acc : list SetParametersResult) (self : Node) :
  _set_parameters_loop f r l acc self =
    match _set_parameters_loop f r l [] self with
    | (s, inl e) => (s, inl e)
    | (s, inr rs) => (s, inr (acc ++ rs)%list)
    end.
Proof.
  revert acc self. induction l as [| p l IH]; intros acc self; simpl.
  - unfold ret. by rewrite app_nil_r.
  - unfold bind. destruct (f [p] self) as [s1 [e | res]]; [done |].
    destruct (r && negb (successful res)); [done |].
    rewrite (IH (acc ++ [res])%list), (IH [res]).
    destruct (_set_parameters_loop f r l [] s1) as [s [e | rs]]; [done |].
    by rewrite <- app_assoc.
Qed.

Lemma loop_cons (f : list Param → M SetParametersResult) (r : bool)
    (p : Param) (l : list Param) (self : Node) :
  _set_parameters_loop f r (p :: l) [] self =
    match f [p] self with
    | (s1, inl e) => (s1, inl e)
    | (s1, inr res) =>
        if r && negb (successful res)
        then (s1, inl (InvalidParameterValueException (name p) (value p)))
        else match _set_parameters_loop f r l [] s1 with
             | (s, inl e) => (s, inl e)
             | (s, inr rs) => (s, inr (res :: rs))
             end
    end.
Proof.
  simpl. unfold bind. destruct (f [p] self) as [s1 [e | res]]; [done |].
  destruct (r && negb (successful res)); [done |].
  by rewrite loop_acc.
Qed.

Lemma loop_app (f : list Param → M SetParametersResult) (r : bool)
    (l1 l2 : list Param) (acc : list SetParametersResult) (self : Node) :
  _set_parameters_loop f r (l1 ++ l2) acc self =
    match _set_parameters_loop f r l1 acc self with
    | (s, inl e) => (s, inl e)
    | (s, inr rs) => _set_parameters_loop f r l2 rs s
    end.
Proof.
  revert acc self. induction l1 as [| p l1 IH]; intros acc self; simpl; [done |].
  unfold bind. destruct (f [p] self) as [s1 [e | res]]; [done |].
  destruct (r && negb (successful res)); [done |]. apply IH.
Qed.

Lemma atomically_single_lookup (p : Param) (self : Node) (k : string) :
  name p ≠ k →
  _parameters (_set_parameters_atomically [p] self).1 !! k = _parameters self !! k.
Proof.
  intros Hne. destruct (successful (callback_result self [p])) eqn:H.
  - rewrite atomically_lookup by done. unfold after_batch. simpl. by rewrite decide_False.
  - by rewrite atomically_rejected.
Qed.

(** ** [set_parameters] with an undeclared name *)

(** Where undeclared parameters are disallowed and some name of the list is
    absent, [set_parameters] raises at an element whose name is absent when
    it is reached, in the node it reaches on the elements before it. *)
Lemma set_parameters_raises_at_undeclared (l : list Param) (self : Node) :
  _allow_undeclared_parameters self = false →
  (∃ p, p ∈ l ∧ _parameters self !! name p = None) →
  ∃ pre p post self' results,
    l = (pre ++ p :: post)%list
    ∧ set_parameters l self = (self', inl (ParameterNotDeclaredException (ArgFlags [])))
    ∧ set_parameters pre self = (self', inr results)
    ∧ length results = length pre
    ∧ _parameters self' !! name p = None.
Proof.
  unfold set_parameters, _set_parameters.
  revert self. induction l as [| q l IH]; intros self Hallow (p0 & Hin & Habs).
  - by apply not_elem_of_nil in Hin.
  - destruct (_parameters self !! name q) as [x |] eqn:Hq.
    + assert (Hp0 : p0 ∈ l).
      { apply elem_of_cons in Hin as [-> | Hin]; [congruence | done]. }
      assert (Hdecl : set_parameters_atomically [q] self = _set_parameters_atomically [q] self).
      { apply set_parameters_atomically_declared. intros y Hy.
        apply list_elem_of_singleton in Hy as ->. rewrite Hq. by eexists. }
      pose proof (atomically_returns [q] self) as Hret.
      pose proof (atomically_same_api [q] self) as (_ & Hal & _).
      pose proof (atomically_single_lookup q self (name p0)) as Hlk.
      destruct (_set_parameters_atomically [q] self) as [s1 r1] eqn:Hcall.
      simpl in Hret, Hal, Hlk. subst r1.
      destruct (IH s1) as (pre & p & post & self' & results & -> & Hfail & Hpre & Hlen & Hnone).
      { congruence. }
      { exists p0. split; [done |]. rewrite Hlk; [done | congruence]. }
      exists (q :: pre), p, post, self', (callback_result self [q] :: results).
      split; [done |].
      change ((q :: pre) ++ p :: post)%list with (q :: (pre ++ p :: post))%list.
      rewrite !loop_cons, Hdecl. simpl. rewrite Hfail, Hpre.
      repeat split; [| done]. simpl. by rewrite Hlen.
    + exists [], q, l, self, []. split; [done |]. split; [| done].
      rewrite loop_cons. unfold set_parameters_atomically. simpl.
      unfold has_parameter. rewrite Hq, Hallow. by simpl.
Qed.

(** C3 as stated fails: with [a] declared and [b] not, setting [a; b] raises
    at [b] after [a] has been set. *)
Lemma set_parameters_mutates_before_raising :
  _allow_undeclared_parameters (node_a1 false) = false
  ∧ _parameters (node_a1 false) !! "b" = None
  ∧ _parameters (node_a1 false) !! "a" = Some (int_param "a" 1)
  ∧ (set_parameters [int_param "a" 2; int_param "b" 3] (node_a1 false)).2
      = inl (ParameterNotDeclaredException (ArgFlags []))
  ∧ _parameters (set_parameters [int_param "a" 2; int_param "b" 3] (node_a1 false)).1 !! "a"
      = Some (int_param "a" 2)
  ∧ _parameters (set_parameters [int_param "a" 2; int_param "b" 3] (node_a1 false)).1
      ≠ _parameters (node_a1 false).
Proof.
  repeat split; try reflexivity.
  intros Heq.
  assert (H : _parameters (set_parameters [int_param "a" 2; int_param "b" 3] (node_a1 false)).1
              !! "a" = _parameters (node_a1 false) !! "a") by (by rewrite Heq).
  vm_compute in H. discriminate H.
Qed.

(** ** Declaring parameters *)

Lemma type_not_set (p : Param) : NOT_SET = type_ p ↔ value p = PV_NOT_SET.
Proof. unfold type_. destruct (value p); simpl; split; congruence. Qed.

Lemma any_gen_all_false (g : list bool) :
  (∀ b, b ∈ g → b = false) → any_gen g = (false, []).
Proof.
  induction g as [| b g IH]; intros H; [done |]. simpl.
  rewrite (H b) by left. apply IH. intros b' Hb'. apply H. by right.
Qed.

Lemma build_parameter_list_valid
    (validator : string → option (string * Z)) (ns : string)
    (tuples : list (string * ParameterValue * ParameterDescriptor)) (self : Node) :
  (∀ u, u ∈ tuples → validator (ns +:+ u.1.1) = None) →
  build_parameter_list validator ns tuples self
    = (self, inr (declared_parameter ns <$> tuples)).
Proof.
  induction tuples as [| t tuples IH]; intros Hv; [done |].
  simpl. unfold bind at 1. unfold validate_parameter_name.
  rewrite (Hv t) by left. unfold ret at 1. unfold bind at 1.
  rewrite IH; [done |]. intros u Hu. apply Hv. by right.
Qed.

Lemma get_parameters_present (names : list string) (ps : list Param) (self : Node) :
  Forall2 (λ k p, _parameters self !! k = Some p) names ps →
  get_parameters names self = (self, inr ps).
Proof.
  unfold get_parameters. induction 1 as [| k p names ps Hk _ IH]; [done |].
  simpl. unfold bind at 1. unfold get_parameter at 1. rewrite Hk.
  unfold bind at 1. by rewrite IH.
Qed.

Lemma lookups_exist (names : list string) (m : gmap string Param) :
  (∀ k, k ∈ names → is_Some (m !! k)) →
  ∃ ps, Forall2 (λ k p, m !! k = Some p) names ps.
Proof.
  induction names as [| k names IH]; intros H.
  - exists []. constructor.
  - destruct (H k) as [p Hp]; [left |].
    destruct IH as [ps Hps]; [intros k' Hk'; apply H; by right |].
    exists (p :: ps). by constructor.
Qed.

Lemma after_batch_cons (q : Param) (l : list Param) (m0 m1 : gmap string Param) (k : string) :
  m1 !! k = after_batch [q] m0 k → after_batch l m1 k = after_batch (q :: l) m0 k.
Proof.
  intros H. unfold after_batch in *. simpl in *.
  destruct (last_entry k l); [done |]. exact H.
Qed.

Lemma same_api_trans (a b c : Node) : same_api a b → same_api b c → same_api a c.
Proof. unfold same_api. intros H1 H2. destruct_and!. repeat split; congruence. Qed.

(** Running the loop with the primitive over entries the callback accepts
    one by one. *)
Lemma loop_all_accepted (r : bool) (l : list Param) (self : Node) :
  (∀ q, q ∈ l → successful (callback_result self [q]) = true) →
  ∃ s,
    _set_parameters_loop _set_parameters_atomically r l [] self
      = (s, inr ((λ q, callback_result self [q]) <$> l))
    ∧ same_api s self
    ∧ (∀ k, _parameters s !! k = after_batch l (_parameters self) k)
    ∧ length (_parameter_event_publisher s)
      = (length (_parameter_event_publisher self) + length l)%nat.
Proof.
  revert self. induction l as [| q l IH]; intros self Hacc.
  - exists self. split; [done |]. split; [by unfold same_api |].
    split; [done | simpl; lia].
  - assert (Hq : successful (callback_result self [q]) = true) by (apply Hacc; left).
    pose proof (atomically_returns [q] self) as Hret.
    pose proof (atomically_same_api [q] self) as Hapi.
    pose proof (atomically_lookup [q] self) as Hlk.
    pose proof (atomically_published [q] self Hq) as Hpub.
    destruct (_set_parameters_atomically [q] self) as [s1 r1] eqn:Hcall.
    simpl in Hret, Hapi, Hlk, Hpub. subst r1.
    destruct (IH s1) as (s & Hloop & Hapi' & Hlk' & Hlen).
    { intros q' Hq'. rewrite (callback_result_same s1 self) by apply Hapi.
      apply Hacc. by right. }
    exists s. rewrite loop_cons, Hcall, Hq, andb_false_r, Hloop.
    split.
    { simpl. do 3 f_equal. apply list_fmap_ext. intros _ q' _.
      apply callback_result_same, Hapi. }
    split; [by eapply same_api_trans |]. split.
    + intros k. rewrite Hlk'. apply after_batch_cons. by apply Hlk.
    + rewrite Hlen, Hpub, length_app. simpl. lia.
Qed.

Lemma declare_parameters_unfold
    (validator : string → option (string * Z)) (ns : string)
    (tuples : list (string * ParameterValue * ParameterDescriptor)) (self : Node) :
  (∀ u, u ∈ tuples → validator (ns +:+ u.1.1) = None) →
  (∀ u, u ∈ tuples → _parameters self !! (ns +:+ u.1.1) = None) →
  declare_parameters validator ns tuples self =
    match _set_parameters_loop _set_parameters_atomically true
            (declared_parameter ns <$> tuples) [] self with
    | (s, inl e) => (s, inl e)
    | (s, inr _) => get_parameters ((λ u, ns +:+ u.1.1) <$> tuples) s
    end.
Proof.
  intros Hv Habs. unfold declare_parameters. unfold bind at 1.
  rewrite build_parameter_list_valid by done.
  rewrite any_gen_all_false.
  - simpl. unfold bind, _set_parameters.
    destruct (_set_parameters_loop _ _ _ _ _) as [s [e | rs]]; [done |].
    f_equal. change (map name (declared_parameter ns <$> tuples))
      with (name <$> (declared_parameter ns <$> tuples)).
    by rewrite <- list_fmap_compose.
  - intros b Hb. apply list_elem_of_In, in_map_iff in Hb as (p & <- & Hp).
    apply list_elem_of_In, list_elem_of_fmap in Hp as (u & -> & Hu).
    unfold has_parameter. simpl. by rewrite Habs.
Qed.

Lemma any_gen_some_true (g : list bool) :
  true ∈ g → ∃ rest, any_gen g = (true, rest) ∧ (length rest < length g)%nat.
Proof.
  induction g as [| b g IH]; intros H.
  - by apply not_elem_of_nil in H.
  - simpl. destruct b.
    + exists g. split; [done | lia].
    + apply elem_of_cons in H as [H | H]; [done |].
      destruct (IH H) as (rest & -> & Hlen). exists rest. split; [done | lia].
Qed.

(** Declaring a list of valid names one of which is already present: the
    call raises [ParameterAlreadyDeclaredException] and returns the node it
    was given.  What the exception is built from is the part of the
    generator of booleans that [any] has not consumed. *)
Lemma declare_parameters_already_declared
    (validator : string → option (string * Z)) (ns : string)
    (tuples : list (string * ParameterValue * ParameterDescriptor)) (self : Node) :
  (∀ u, u ∈ tuples → validator (ns +:+ u.1.1) = None) →
  (∃ u, u ∈ tuples ∧ is_Some (_parameters self !! (ns +:+ u.1.1))) →
  ∃ flags,
    declare_parameters validator ns tuples self
      = (self, inl (ParameterAlreadyDeclaredException (ArgFlags flags)))
    ∧ (length flags < length tuples)%nat.
Proof.
  intros Hv (u & Hu & [x Hx]).
  unfold declare_parameters. unfold bind at 1.
  rewrite build_parameter_list_valid by done.
  destruct (any_gen_some_true
              (map (λ parameter, has_parameter (name parameter) self)
                   (declared_parameter ns <$> tuples))) as (rest & Hany & Hlen).
  { apply list_elem_of_In, in_map_iff. exists (declared_parameter ns u). split.
    - unfold has_parameter. simpl. by rewrite Hx.
    - apply list_elem_of_In. by apply list_elem_of_fmap_2. }
  rewrite Hany. simpl. exists rest. split; [done |].
  by rewrite length_map, length_fmap in Hlen.
Qed.

(** ** Partial failure of declare (C6) *)

(** C6.  In a declare of valid, not yet declared names, when the callback
    accepts each entry of a prefix and refuses the next entry, the call
    raises [InvalidParameterValueException] for that entry.  The node it ends
    in has the prefix applied and nothing else: an entry of the prefix with a
    value, not repeated under the same name, is stored; the refused entry and
    those after it are not, unless the prefix declared their name; one event
    has been published per entry of the prefix. *)
Theorem declare_stops_at_rejected_entry
    (validator : string → option (string * Z)) (ns : string)
    (pre : list (string * ParameterValue * ParameterDescriptor))
    (t : string * ParameterValue * ParameterDescriptor)
    (post : list (string * ParameterValue * ParameterDescriptor)) (self : Node) :
  (∀ u, u ∈ (pre ++ t :: post)%list → validator (ns +:+ u.1.1) = None) →
  (∀ u, u ∈ (pre ++ t :: post)%list → _parameters self !! (ns +:+ u.1.1) = None) →
  (∀ u, u ∈ pre → successful (callback_result self [declared_parameter ns u]) = true) →
  successful (callback_result self [declared_parameter ns t]) = false →
  ∃ self',
    declare_parameters validator ns (pre ++ t :: post) self
      = (self', inl (InvalidParameterValueException (ns +:+ t.1.1) t.1.2))
    ∧ (∀ k, _parameters self' !! k
            = after_batch (declared_parameter ns <$> pre) (_parameters self) k)
    ∧ (∀ u, u ∈ pre →
            (∀ w, w ∈ pre → ns +:+ w.1.1 = ns +:+ u.1.1 → w = u) →
            u.1.2 ≠ PV_NOT_SET →
            _parameters self' !! (ns +:+ u.1.1) = Some (declared_parameter ns u))
    ∧ (∀ u, u ∈ t :: post →
            ns +:+ u.1.1 ∉ (λ w, ns +:+ w.1.1) <$> pre →
            _parameters self' !! (ns +:+ u.1.1) = None)
    ∧ length (_parameter_event_publisher self')
      = (length (_parameter_event_publisher self) + length pre)%nat.
Proof.
  intros Hv Habs Hacc Hrej.
  destruct (loop_all_accepted true (declared_parameter ns <$> pre) self)
    as (s & Hloop & Hapi & Hlk & Hlen).
  { intros q Hq. apply list_elem_of_fmap in Hq as (u & -> & Hu). by apply Hacc. }
  exists s. split; [| split; [exact Hlk | split; [| split]]].
  - rewrite declare_parameters_unfold by done.
    rewrite fmap_app, loop_app, Hloop, fmap_cons, loop_acc, loop_cons.
    rewrite atomically_rejected.
    + rewrite (callback_result_same s self) by apply Hapi. by rewrite Hrej.
    + rewrite (callback_result_same s self) by apply Hapi. exact Hrej.
  - intros u Hu Huniq Hval. rewrite Hlk.
    change (ns +:+ u.1.1) with (name (declared_parameter ns u)).
    rewrite after_batch_unique.
    + rewrite decide_False; [done |]. rewrite type_not_set. exact Hval.
    + by apply list_elem_of_fmap_2.
    + intros q Hq Hn. apply list_elem_of_fmap in Hq as (w & -> & Hw).
      f_equal. by apply Huniq.
  - intros u Hu Hout. rewrite Hlk, after_batch_outside.
    + apply Habs. apply elem_of_app. by right.
    + by rewrite <- list_fmap_compose.
  - by rewrite Hlen, length_fmap.
Qed.

Lemma declare_stops_at_rejected_entry_witness :
  ∃ self',
    declare_parameters sample_validator ""
      [int_tuple "a" 1; int_tuple "b" 2; int_tuple "c" 3] node_refusing_b
      = (self', inl (InvalidParameterValueException "b" (PV_INTEGER 2)))
    ∧ _parameters self' !! "a" = Some (int_param "a" 1)
    ∧ _parameters self' !! "b" = None
    ∧ _parameters self' !! "c" = None
    ∧ length (_parameter_event_publisher self') = 1%nat.
Proof.
  destruct (declare_stops_at_rejected_entry sample_validator ""
              [int_tuple "a" 1] (int_tuple "b" 2) [int_tuple "c" 3] node_refusing_b)
    as (self' & Hcall & _ & Hpre & Hpost & Hlen).
  - intros u Hu. repeat (apply elem_of_cons in Hu as [-> | Hu]);
      try reflexivity; by apply elem_of_nil in Hu.
  - intros u Hu. repeat (apply elem_of_cons in Hu as [-> | Hu]);
      try reflexivity; by apply elem_of_nil in Hu.
  - intros u Hu. repeat (apply elem_of_cons in Hu as [-> | Hu]);
      try reflexivity; by apply elem_of_nil in Hu.
  - reflexivity.
  - exists self'. split; [exact Hcall |]. split; [| split; [| split; [| exact Hlen]]].
    + apply (Hpre (int_tuple "a" 1)); [left | | discriminate].
      intros w Hw _. by apply list_elem_of_singleton in Hw.
    + apply (Hpost (int_tuple "b" 2)); [left |].
      simpl. intros H. apply list_elem_of_singleton in H. discriminate H.
    + apply (Hpost (int_tuple "c" 3)); [right; left |].
      simpl. intros H. apply list_elem_of_singleton in H. discriminate H.
Defined.

(** ** Declare, then get (C7) *)

(** A declare of valid, not yet declared names with values, each accepted by
    the callback: it returns, the dictionary is the old one with the entries
    applied in order, and the list returned holds, for each tuple, what the
    dictionary has under its name. *)
Lemma declare_parameters_accepted
    (validator : string → option (string * Z)) (ns : string)
    (tuples : list (string * ParameterValue * ParameterDescriptor)) (self : Node) :
  (∀ u, u ∈ tuples → validator (ns +:+ u.1.1) = None) →
  (∀ u, u ∈ tuples → _parameters self !! (ns +:+ u.1.1) = None) →
  (∀ u, u ∈ tuples → successful (callback_result self [declared_parameter ns u]) = true) →
  (∀ u, u ∈ tuples → u.1.2 ≠ PV_NOT_SET) →
  ∃ self' ps,
    declare_parameters validator ns tuples self = (self', inr ps)
    ∧ (∀ k, _parameters self' !! k
            = after_batch (declared_parameter ns <$> tuples) (_parameters self) k)
    ∧ Forall2 (λ u p, _parameters self' !! (ns +:+ u.1.1) = Some p) tuples ps.
Proof.
  intros Hv Habs Hacc Hval.
  destruct (loop_all_accepted true (declared_parameter ns <$> tuples) self)
    as (s & Hloop & Hapi & Hlk & Hlen).
  { intros q Hq. apply list_elem_of_fmap in Hq as (u & -> & Hu). by apply Hacc. }
  destruct (lookups_exist ((λ u, ns +:+ u.1.1) <$> tuples) (_parameters s)) as [ps Hps].
  { intros k Hk. rewrite Hlk. unfold after_batch.
    destruct (last_entry_is_Some k (declared_parameter ns <$> tuples)) as [q Hq].
    { by rewrite <- list_fmap_compose. }
    rewrite Hq. apply last_entry_Some in Hq as [Hin _].
    apply list_elem_of_fmap in Hin as (u & -> & Hu).
    rewrite decide_False; [by eexists |]. rewrite type_not_set. by apply Hval. }
  exists s, ps. split; [| split; [exact Hlk |]].
  - rewrite declare_parameters_unfold, Hloop by done. by apply get_parameters_present.
  - by apply Forall2_fmap_l in Hps.
Qed.

(** Declaring a NOT_SET value stores nothing; where undeclared parameters
    are allowed the re-read gives the default NOT_SET parameter. *)
Lemma declare_not_set_allowed
    (validator : string → option (string * Z)) (self : Node)
    (nm : string) (d : ParameterDescriptor) :
  validator nm = None →
  _parameters self !! nm = None →
  successful (callback_result self [mkParam nm PV_NOT_SET d]) = true →
  _allow_undeclared_parameters self = true →
  ∃ self',
    declare_parameter validator nm PV_NOT_SET d self = (self', inr (Parameter_NOT_SET nm))
    ∧ get_parameter nm self' = (self', inr (Parameter_NOT_SET nm))
    ∧ _parameters self' !! nm = None.
Proof.
  intros Hv Habs Hacc Hallow.
  destruct (loop_all_accepted true [mkParam nm PV_NOT_SET d] self)
    as (s & Hloop & Hapi & Hlk & _).
  { intros q Hq. by apply list_elem_of_singleton in Hq as ->. }
  assert (Hnone : _parameters s !! nm = None).
  { rewrite Hlk. unfold after_batch. simpl. by rewrite decide_True. }
  assert (Hget : get_parameter nm s = (s, inr (Parameter_NOT_SET nm))).
  { unfold get_parameter. rewrite Hnone.
    destruct Hapi as (_ & -> & _). by rewrite Hallow. }
  exists s. split; [| by split].
  unfold declare_parameter. unfold bind at 1.
  rewrite (declare_parameters_unfold validator "" [(nm, PV_NOT_SET, d)] self).
  - change (declared_parameter "" <$> [(nm, PV_NOT_SET, d)]) with [mkParam nm PV_NOT_SET d].
    rewrite Hloop.
    change ((λ u : string * ParameterValue * ParameterDescriptor, "" +:+ u.1.1)
              <$> [(nm, PV_NOT_SET, d)]) with [nm].
    unfold get_parameters, mapM, bind. rewrite Hget. by simpl.
  - intros u Hu. by apply list_elem_of_singleton in Hu as ->.
  - intros u Hu. by apply list_elem_of_singleton in Hu as ->.
Qed.

(** C7, as amended.  Declaring valid, not yet declared names with values
    other than NOT_SET, each accepted by the callback, returns; the list
    returned is what [get_parameters] then reads for the same names, element
    by element what the dictionary holds; and for a name the list gives once,
    [get_parameter] then returns the parameter built from the tuple, which is
    also in the list returned.  In particular [declare_parameter] followed by
    [get_parameter] gives the declared parameter.  A NOT_SET value is never
    stored: where undeclared parameters are allowed, declare and get both
    give the default NOT_SET parameter of that name. *)
Theorem declare_then_get
    (validator : string → option (string * Z)) (self : Node) :
  (∀ ns tuples,
     (∀ u, u ∈ tuples → validator (ns +:+ u.1.1) = None) →
     (∀ u, u ∈ tuples → _parameters self !! (ns +:+ u.1.1) = None) →
     (∀ u, u ∈ tuples → successful (callback_result self [declared_parameter ns u]) = true) →
     (∀ u, u ∈ tuples → u.1.2 ≠ PV_NOT_SET) →
     ∃ self' ps,
       declare_parameters validator ns tuples self = (self', inr ps)
       ∧ get_parameters ((λ u, ns +:+ u.1.1) <$> tuples) self' = (self', inr ps)
       ∧ Forall2 (λ u p, _parameters self' !! (ns +:+ u.1.1) = Some p) tuples ps
       ∧ (∀ u, u ∈ tuples →
               (∀ w, w ∈ tuples → ns +:+ w.1.1 = ns +:+ u.1.1 → w = u) →
               get_parameter (ns +:+ u.1.1) self' = (self', inr (declared_parameter ns u))
               ∧ declared_parameter ns u ∈ ps))
  ∧ (∀ nm v d,
       validator nm = None →
       _parameters self !! nm = None →
       successful (callback_result self [mkParam nm v d]) = true →
       v ≠ PV_NOT_SET →
       ∃ self',
         declare_parameter validator nm v d self = (self', inr (mkParam nm v d))
         ∧ get_parameter nm self' = (self', inr (mkParam nm v d)))
  ∧ (∀ nm d,
       validator nm = None →
       _parameters self !! nm = None →
       successful (callback_result self [mkParam nm PV_NOT_SET d]) = true →
       _allow_undeclared_parameters self = true →
       ∃ self',
         declare_parameter validator nm PV_NOT_SET d self
           = (self', inr (Parameter_NOT_SET nm))
         ∧ get_parameter nm self' = (self', inr (Parameter_NOT_SET nm))
         ∧ _parameters self' !! nm = None).
Proof.
  assert (Hlist : ∀ ns tuples,
     (∀ u, u ∈ tuples → validator (ns +:+ u.1.1) = None) →
     (∀ u, u ∈ tuples → _parameters self !! (ns +:+ u.1.1) = None) →
     (∀ u, u ∈ tuples → successful (callback_result self [declared_parameter ns u]) = true) →
     (∀ u, u ∈ tuples → u.1.2 ≠ PV_NOT_SET) →
     ∃ self' ps,
       declare_parameters validator ns tuples self = (self', inr ps)
       ∧ get_parameters ((λ u, ns +:+ u.1.1) <$> tuples) self' = (self', inr ps)
       ∧ Forall2 (λ u p, _parameters self' !! (ns +:+ u.1.1) = Some p) tuples ps
       ∧ (∀ u, u ∈ tuples →
               (∀ w, w ∈ tuples → ns +:+ w.1.1 = ns +:+ u.1.1 → w = u) →
               get_parameter (ns +:+ u.1.1) self' = (self', inr (declared_parameter ns u))
               ∧ declared_parameter ns u ∈ ps)).
  { intros ns tuples Hv Habs Hacc Hval.
    destruct (declare_parameters_accepted validator ns tuples self Hv Habs Hacc Hval)
      as (self' & ps & Hcall & Hlk & Hps).
    exists self', ps. split; [exact Hcall |]. split; [| split; [exact Hps |]].
    - apply get_parameters_present. by apply Forall2_fmap_l.
    - intros u Hu Huniq.
      assert (Hstored : _parameters self' !! (ns +:+ u.1.1) = Some (declared_parameter ns u)).
      { rewrite Hlk. change (ns +:+ u.1.1) with (name (declared_parameter ns u)).
        rewrite after_batch_unique.
        - rewrite decide_False; [done |]. rewrite type_not_set. by apply Hval.
        - by apply list_elem_of_fmap_2.
        - intros q Hq Hn. apply list_elem_of_fmap in Hq as (w & -> & Hw).
          f_equal. by apply Huniq. }
      split.
      + unfold get_parameter. by rewrite Hstored.
      + apply list_elem_of_lookup in Hu as [i Hi].
        destruct (Forall2_lookup_l _ _ _ _ _ Hps Hi) as (p & Hp & Hsame).
        simpl in Hsame. rewrite Hstored in Hsame. injection Hsame as <-.
        by eapply list_elem_of_lookup_2. }
  split; [exact Hlist |]. split; [| apply declare_not_set_allowed].
  intros nm v d Hv Habs Hacc Hval.
  destruct (Hlist "" [(nm, v, d)]) as (self' & ps & Hcall & _ & Hps & Hget).
  { intros u Hu. by apply list_elem_of_singleton in Hu as ->. }
  { intros u Hu. by apply list_elem_of_singleton in Hu as ->. }
  { intros u Hu. by apply list_elem_of_singleton in Hu as ->. }
  { intros u Hu. by apply list_elem_of_singleton in Hu as ->. }
  destruct (Hget (nm, v, d)) as [Hg _]; [left | |].
  { intros w Hw _. by apply list_elem_of_singleton in Hw. }
  exists self'. split; [| exact Hg].
  unfold declare_parameter, bind. rewrite Hcall.
  apply Forall2_cons_inv_l in Hps as (p & ps' & Hp & Hnil & ->).
  simpl in Hp. unfold get_parameter in Hg. simpl in Hg. rewrite Hp in Hg.
  by injection Hg as ->.
Qed.

Lemma declare_then_get_witness :
  ∃ self',
    declare_parameter sample_validator "speed" (PV_DOUBLE (S754_finite false 3 (-1)))
      default_descriptor (fresh_node false)
      = (self', inr (mkParam "speed" (PV_DOUBLE (S754_finite false 3 (-1))) default_descriptor))
    ∧ get_parameter "speed" self'
      = (self', inr (mkParam "speed" (PV_DOUBLE (S754_finite false 3 (-1))) default_descriptor)).
Proof.
  apply (proj2 (declare_then_get sample_validator (fresh_node false)));
    [reflexivity | reflexivity | reflexivity | discriminate].
Defined.

(** C7 as stated fails for a NOT_SET value: nothing is stored for it, and
    with undeclared parameters disallowed the re-read at the end of declare
    raises, as does a later get. *)
Lemma declare_not_set_then_get_raises :
  sample_validator "x" = None
  ∧ _parameters (fresh_node false) !! "x" = None
  ∧ _parameters_callback (fresh_node false) = None
  ∧ ∃ self',
      declare_parameter sample_validator "x" PV_NOT_SET default_descriptor (fresh_node false)
        = (self', inl (ParameterNotDeclaredException (ArgName "x")))
      ∧ get_parameter "x" self' = (self', inl (ParameterNotDeclaredException (ArgName "x"))).
Proof.
  split; [reflexivity |]. split; [reflexivity |]. split; [reflexivity |].
  eexists. split; reflexivity.
Qed.

(** ** Declaring an existing name (C4) *)

(** C4.  A declare of valid names of which one is already present raises
    [ParameterAlreadyDeclaredException] and returns the node it was given;
    but the exception is built from a list of booleans, the part of the
    generator [any] left unconsumed, shorter than the list of tuples, and not
    from the offending names. *)
Theorem declare_existing_name_carries_flags
    (validator : string → option (string * Z)) (ns : string)
    (tuples : list (string * ParameterValue * ParameterDescriptor)) (self : Node) :
  (∀ u, u ∈ tuples → validator (ns +:+ u.1.1) = None) →
  (∃ u, u ∈ tuples ∧ is_Some (_parameters self !! (ns +:+ u.1.1))) →
  ∃ flags,
    declare_parameters validator ns tuples self
      = (self, inl (ParameterAlreadyDeclaredException (ArgFlags flags)))
    ∧ (length flags < length tuples)%nat
    ∧ ∀ nm, (declare_parameters validator ns tuples self).2
            ≠ inl (ParameterAlreadyDeclaredException (ArgName nm)).
Proof.
  intros Hv Hex.
  destruct (declare_parameters_already_declared validator ns tuples self Hv Hex)
    as (flags & Hcall & Hlen).
  exists flags. split; [exact Hcall |]. split; [exact Hlen |].
  intros nm. rewrite Hcall. simpl. discriminate.
Qed.

Lemma declare_existing_name_carries_flags_witness :
  declare_parameters sample_validator "" [int_tuple "a" 5] (node_a1 false)
    = (node_a1 false, inl (ParameterAlreadyDeclaredException (ArgFlags []))).
Proof.
  destruct (declare_existing_name_carries_flags sample_validator ""
              [int_tuple "a" 5] (node_a1 false)) as (flags & Hcall & Hlen & _).
  - intros u Hu. by apply list_elem_of_singleton in Hu as ->.
  - exists (int_tuple "a" 5). split; [left | by eexists].
  - destruct flags as [| b flags]; [exact Hcall | simpl in Hlen; lia].
Defined.

(** * Further properties of the parameter methods *)

(** ** When the public atomic set raises *)

(** With undeclared parameters disallowed, a batch naming a parameter absent
    from the dictionary, anywhere in the batch, makes
    [set_parameters_atomically] raise [ParameterNotDeclaredException] and
    return the node it was given: nothing is set, nothing published.  In
    every other case the call is the primitive's. *)
Theorem set_parameters_atomically_all_or_nothing (l : list Param) (self : Node) :
  (_allow_undeclared_parameters self = false →
   (∃ p, p ∈ l ∧ _parameters self !! name p = None) →
   ∃ flags,
     set_parameters_atomically l self
       = (self, inl (ParameterNotDeclaredException (ArgFlags flags)))
     ∧ (length flags < length l)%nat)
  ∧ (_allow_undeclared_parameters self = true
     ∨ (∀ p, p ∈ l → is_Some (_parameters self !! name p)) →
     set_parameters_atomically l self = _set_parameters_atomically l self).
Proof.
  split.
  - intros Hallow (p & Hp & Habs). unfold set_parameters_atomically.
    destruct (any_gen_some_true
                (map (λ parameter, negb (has_parameter (name parameter) self)) l))
      as (rest & Hany & Hlen).
    { apply list_elem_of_In, in_map_iff. exists p. split; [| by apply list_elem_of_In].
      unfold has_parameter. by rewrite Habs. }
    rewrite Hany, Hallow. simpl. exists rest. split; [done |].
    by rewrite length_map in Hlen.
  - intros [Hallow | Hdecl].
    + unfold set_parameters_atomically. by rewrite Hallow.
    + by apply set_parameters_atomically_declared.
Qed.

Lemma set_parameters_atomically_all_or_nothing_witness :
  (∃ flags,
     set_parameters_atomically [int_param "a" 2; int_param "b" 3] (node_a1 false)
       = (node_a1 false, inl (ParameterNotDeclaredException (ArgFlags flags)))
     ∧ (length flags < 2)%nat)
  ∧ set_parameters_atomically [int_param "a" 2; int_param "b" 3] (node_a1 true)
    = _set_parameters_atomically [int_param "a" 2; int_param "b" 3] (node_a1 true).
Proof.
  split.
  - apply (proj1 (set_parameters_atomically_all_or_nothing
                    [int_param "a" 2; int_param "b" 3] (node_a1 false))).
    + reflexivity.
    + exists (int_param "b" 3). split; [right; left | reflexivity].
  - apply (proj2 (set_parameters_atomically_all_or_nothing
                    [int_param "a" 2; int_param "b" 3] (node_a1 true))).
    left. reflexivity.
Defined.

(** ** Undeclaring a parameter that may be undeclared *)

(** [undeclare_parameter] on a stored parameter that is not read-only
    removes that name and no other, publishes nothing and does not read the
    clock; a second undeclare of the same name raises
    [ParameterNotDeclaredException]. *)
Theorem undeclare_removes_quietly (self : Node) (k : string) (p : Param) :
  _parameters self !! k = Some p →
  read_only (descriptor p) = false →
  ∃ self',
    undeclare_parameter k self = (self', inr tt)
    ∧ _parameters self' = delete k (_parameters self)
    ∧ _parameters self' !! k = None
    ∧ (∀ k', k' ≠ k → _parameters self' !! k' = _parameters self !! k')
    ∧ same_frame self' self
    ∧ undeclare_parameter k self' = (self', inl (ParameterNotDeclaredException (ArgName k))).
Proof.
  intros Hk Hro.
  exists (with_parameters self (delete k (_parameters self))).
  split; [unfold undeclare_parameter; by rewrite Hk, Hro |].
  split; [done |]. split; [apply lookup_delete_eq |].
  split; [intros k' Hne; by apply lookup_delete_ne |].
  split; [apply same_frame_with_parameters |].
  unfold undeclare_parameter. simpl. by rewrite lookup_delete_eq.
Qed.

Lemma undeclare_removes_quietly_witness :
  ∃ self',
    undeclare_parameter "a" (node_a1 false) = (self', inr tt)
    ∧ _parameters self' = delete "a" (_parameters (node_a1 false))
    ∧ _parameters self' !! "a" = None
    ∧ (∀ k', k' ≠ "a" → _parameters self' !! k' = _parameters (node_a1 false) !! k')
    ∧ same_frame self' (node_a1 false)
    ∧ undeclare_parameter "a" self'
      = (self', inl (ParameterNotDeclaredException (ArgName "a"))).
Proof.
  apply (undeclare_removes_quietly (node_a1 false) "a" (int_param "a" 1)); reflexivity.
Defined.

(** ** Reading parameters *)

Lemma mapM_get_allowed (names : list string) (self : Node) :
  _allow_undeclared_parameters self = true →
  get_parameters names self
    = (self, inr ((λ k, get_parameter_or k None self) <$> names)).
Proof.
  intros Hallow. unfold get_parameters.
  induction names as [| k names IH]; [done |].
  simpl. unfold bind at 1.
  assert (Hk : get_parameter k self = (self, inr (get_parameter_or k None self))).
  { unfold get_parameter, get_parameter_or.
    destruct (_parameters self !! k); [done |]. by rewrite Hallow. }
  rewrite Hk. unfold bind at 1. by rewrite IH.
Qed.

Lemma mapM_get_first_missing (pre : list string) (k : string) (post : list string)
    (self : Node) :
  _allow_undeclared_parameters self = false →
  (∀ k', k' ∈ pre → is_Some (_parameters self !! k')) →
  _parameters self !! k = None →
  get_parameters (pre ++ k :: post) self
    = (self, inl (ParameterNotDeclaredException (ArgName k))).
Proof.
  intros Hallow Hpre Hk. unfold get_parameters.
  induction pre as [| k0 pre IH]; simpl.
  - unfold bind at 1. unfold get_parameter at 1. by rewrite Hk, Hallow.
  - destruct (Hpre k0) as [p Hp]; [left |].
    unfold bind at 1. unfold get_parameter at 1. rewrite Hp.
    unfold bind at 1. rewrite IH; [done |]. intros k' Hk'. apply Hpre. by right.
Qed.

(** [get_parameters] never changes the node.  When undeclared parameters are
    allowed it always returns, giving for each name what [get_parameter_or]
    gives (the stored parameter, or the NOT_SET parameter of that name).
    When they are disallowed it raises for the first name, in list order,
    that is absent from the dictionary. *)
Theorem get_parameters_total_or_first_missing (names : list string) (self : Node) :
  (get_parameters names self).1 = self
  ∧ (_allow_undeclared_parameters self = true →
     get_parameters names self
       = (self, inr ((λ k, get_parameter_or k None self) <$> names)))
  ∧ (_allow_undeclared_parameters self = false →
     ∀ pre k post,
       names = (pre ++ k :: post)%list →
       (∀ k', k' ∈ pre → is_Some (_parameters self !! k')) →
       _parameters self !! k = None →
       get_parameters names self
         = (self, inl (ParameterNotDeclaredException (ArgName k)))).
Proof.
  split; [apply get_parameters_unchanged |]. split.
  - by apply mapM_get_allowed.
  - intros Hallow pre k post -> Hpre Hk. by apply mapM_get_first_missing.
Qed.

Lemma get_parameters_total_or_first_missing_witness :
  get_parameters ["a"; "b"; "c"] (node_a1 true)
    = (node_a1 true, inr [int_param "a" 1; Parameter_NOT_SET "b"; Parameter_NOT_SET "c"])
  ∧ get_parameters ["a"; "b"; "c"] (node_a1 false)
    = (node_a1 false, inl (ParameterNotDeclaredException (ArgName "b"))).
Proof.
  split.
  - apply (proj1 (proj2 (get_parameters_total_or_first_missing
                           ["a"; "b"; "c"] (node_a1 true)))).
    reflexivity.
  - apply (proj2 (proj2 (get_parameters_total_or_first_missing
                           ["a"; "b"; "c"] (node_a1 false)))
             eq_refl ["a"] "b" ["c"]); [reflexivity | | reflexivity].
    intros k' Hk'. apply list_elem_of_singleton in Hk' as ->. by eexists.
Defined.

(** ** Declaring an invalid name *)

(** [declare_parameters] validates the names in list order before it looks
    at the dictionary: at the first name the validator refuses it raises
    [InvalidParameterException] with that full name and the validator's
    message and index, and returns the node it was given, whatever the
    dictionary holds and whatever follows in the list. *)
Theorem declare_invalid_name_raises_first
    (validator : string → option (string * Z)) (ns : string)
    (pre : list (string * ParameterValue * ParameterDescriptor))
    (t : string * ParameterValue * ParameterDescriptor)
    (post : list (string * ParameterValue * ParameterDescriptor))
    (self : Node) (error_msg : string) (invalid_index : Z) :
  (∀ u, u ∈ pre → validator (ns +:+ u.1.1) = None) →
  validator (ns +:+ t.1.1) = Some (error_msg, invalid_index) →
  declare_parameters validator ns (pre ++ t :: post) self
    = (self, inl (InvalidParameterException (ns +:+ t.1.1) error_msg invalid_index)).
Proof.
  intros Hpre Ht. unfold declare_parameters. unfold bind at 1.
  assert (H : build_parameter_list validator ns (pre ++ t :: post) self
              = (self, inl (InvalidParameterException (ns +:+ t.1.1) error_msg invalid_index))).
  { induction pre as [| u pre IH]; simpl.
    - unfold bind at 1. unfold validate_parameter_name. by rewrite Ht.
    - unfold bind at 1. unfold validate_parameter_name at 1.
      rewrite (Hpre u) by left. unfold ret at 1. unfold bind at 1.
      rewrite IH; [done |]. intros w Hw. apply Hpre. by right. }
  by rewrite H.
Qed.

Lemma declare_invalid_name_raises_first_witness :
  declare_parameters sample_validator "" [int_tuple "a" 5; int_tuple "b c" 2; int_tuple "" 3]
    (node_a1 false)
  = (node_a1 false,
     inl (InvalidParameterException "b c"
            "topic name must not contain characters other than alphanumerics, '_', '~', '{', or '}'"
            1)).
Proof.
  apply (declare_invalid_name_raises_first sample_validator ""
           [int_tuple "a" 5] (int_tuple "b c" 2) [int_tuple "" 3] (node_a1 false)).
  - intros u Hu. by apply list_elem_of_singleton in Hu as ->.
  - reflexivity.
Defined.

(** ** [set_parameters] where undeclared parameters are allowed *)

Lemma accepted_singly_same (a b : Node) (l : list Param) :
  _parameters_callback a = _parameters_callback b →
  accepted_singly a l = accepted_singly b l.
Proof.
  intros H. unfold accepted_singly. apply filter_agree. intros p _.
  by rewrite (callback_result_same a b).
Qed.

(** Where undeclared parameters are allowed, [set_parameters] never raises.
    It returns, in order, the callback's answer to each parameter given
    alone; a refused parameter does not stop the ones after it; the
    dictionary ends as if exactly the accepted parameters had been applied
    in order, and one event was published for each of them. *)
Theorem set_parameters_applies_accepted (l : list Param) (self : Node) :
  _allow_undeclared_parameters self = true →
  ∃ self',
    set_parameters l self = (self', inr ((λ p, callback_result self [p]) <$> l))
    ∧ (∀ k, _parameters self' !! k
            = after_batch (accepted_singly self l) (_parameters self) k)
    ∧ length (_parameter_event_publisher self')
      = (length (_parameter_event_publisher self) + length (accepted_singly self l))%nat
    ∧ same_api self' self.
Proof.
  unfold set_parameters, _set_parameters.
  revert self. induction l as [| q l IH]; intros self Hallow.
  - exists self. split; [done |]. split; [done |]. split; [simpl; lia |].
    by unfold same_api.
  - assert (Hpub : set_parameters_atomically [q] self = _set_parameters_atomically [q] self).
    { unfold set_parameters_atomically. by rewrite Hallow. }
    pose proof (atomically_returns [q] self) as Hret.
    pose proof (atomically_same_api [q] self) as Hapi.
    destruct (_set_parameters_atomically [q] self) as [s1 r1] eqn:Hcall.
    simpl in Hret, Hapi. subst r1.
    destruct (IH s1) as (s & Hloop & Hlk & Hlen & Hapi').
    { destruct Hapi as (_ & -> & _). exact Hallow. }
    exists s. rewrite loop_cons, Hpub. simpl. rewrite Hloop.
    rewrite (accepted_singly_same s1 self) in Hlk, Hlen by apply Hapi.
    split; [| split; [| split; [| by eapply same_api_trans]]].
    + do 3 f_equal. apply list_fmap_ext. intros _ p _.
      apply callback_result_same, Hapi.
    + intros k. rewrite Hlk. unfold accepted_singly.
      destruct (successful (callback_result self [q])) eqn:Hq.
      * rewrite (filter_cons_True _ q) by done. apply after_batch_cons.
        replace s1 with (_set_parameters_atomically [q] self).1 by (by rewrite Hcall).
        by apply atomically_lookup.
      * rewrite (filter_cons_False _ q) by (by rewrite Hq).
        rewrite atomically_rejected in Hcall by done. by injection Hcall as <-.
    + rewrite Hlen. unfold accepted_singly.
      destruct (successful (callback_result self [q])) eqn:Hq.
      * rewrite (filter_cons_True _ q) by done.
        pose proof (atomically_published [q] self Hq) as Hp. rewrite Hcall in Hp.
        simpl in Hp. rewrite Hp, length_app. simpl. lia.
      * rewrite (filter_cons_False _ q) by (by rewrite Hq).
        rewrite atomically_rejected in Hcall by done. by injection Hcall as <-.
Qed.

Lemma set_parameters_applies_accepted_witness :
  ∃ self',
    set_parameters [int_param "a" 2; int_param "b" 3; int_param "c" 4]
      (set_parameters_callback (reject_name "b") (node_a1 true))
    = (self', inr [SetParametersResult_ok;
                   {| successful := false; reason := "rejected" |};
                   SetParametersResult_ok])
    ∧ _parameters self' !! "a" = Some (int_param "a" 2)
    ∧ _parameters self' !! "b" = None
    ∧ _parameters self' !! "c" = Some (int_param "c" 4)
    ∧ length (_parameter_event_publisher self') = 2%nat.
Proof.
  destruct (set_parameters_applies_accepted
              [int_param "a" 2; int_param "b" 3; int_param "c" 4]
              (set_parameters_callback (reject_name "b") (node_a1 true)))
    as (self' & Hcall & Hlk & Hlen & _).
  - reflexivity.
  - exists self'. split; [exact Hcall |].
    split; [by rewrite Hlk |]. split; [by rewrite Hlk |]. split; [by rewrite Hlk |].
    exact Hlen.
Defined.

(** ** Setting never declares where undeclared parameters are disallowed *)

Lemma any_gen_false_inv (g : list bool) :
  (any_gen g).1 = false → ∀ b, b ∈ g → b = false.
Proof.
  induction g as [| b g IH]; intros H b' Hb'.
  - by apply not_elem_of_nil in Hb'.
  - simpl in H. destruct b; [done |].
    apply elem_of_cons in Hb' as [-> | Hb']; [done | by apply IH].
Qed.

Lemma set_parameters_atomically_same_api (l : list Param) (self : Node) :
  same_api (set_parameters_atomically l self).1 self.
Proof.
  unfold set_parameters_atomically. destruct (negb _ && _).
  - by unfold same_api.
  - apply atomically_same_api.
Qed.

Lemma set_parameters_atomically_no_new_name (l : list Param) (self : Node) (k : string) :
  _allow_undeclared_parameters self = false →
  _parameters self !! k = None →
  _parameters (set_parameters_atomically l self).1 !! k = None.
Proof.
  intros Hallow Hk. unfold set_parameters_atomically. rewrite Hallow. simpl.
  destruct (any_gen _).1 eqn:Hany; [done |].
  assert (Hout : k ∉ name <$> l).
  { intros Hin. apply list_elem_of_fmap in Hin as (p & -> & Hp).
    assert (Hb : negb (has_parameter (name p) self) = false).
    { apply (any_gen_false_inv _ Hany). apply list_elem_of_In, in_map_iff.
      exists p. split; [done | by apply list_elem_of_In]. }
    unfold has_parameter in Hb. by rewrite Hk in Hb. }
  destruct (successful (callback_result self l)) eqn:Hacc.
  - rewrite atomically_lookup by done. by rewrite after_batch_outside.
  - by rewrite atomically_rejected.
Qed.

(** Where undeclared parameters are disallowed, neither [set_parameters] nor
    [set_parameters_atomically] ever adds a name to the dictionary, whether
    the call returns or raises: the names present afterwards were present
    before. *)
Theorem set_never_declares (l : list Param) (self : Node) :
  _allow_undeclared_parameters self = false →
  dom (_parameters (set_parameters_atomically l self).1) ⊆ dom (_parameters self)
  ∧ dom (_parameters (set_parameters l self).1) ⊆ dom (_parameters self).
Proof.
  intros Hallow.
  assert (Hsub : ∀ s : Node,
            (∀ k, _parameters self !! k = None → _parameters s !! k = None) →
            dom (_parameters s) ⊆ dom (_parameters self)).
  { intros s Hs k Hk. apply elem_of_dom in Hk. apply elem_of_dom.
    destruct (_parameters self !! k) eqn:Hself; [by eexists |].
    rewrite (Hs k Hself) in Hk. by destruct Hk. }
  split.
  - apply Hsub. intros k Hk. by apply set_parameters_atomically_no_new_name.
  - apply Hsub.
    pose (P := λ s : Node, _allow_undeclared_parameters s = false
                 ∧ ∀ k, _parameters self !! k = None → _parameters s !! k = None).
    assert (HP : P (set_parameters l self).1).
    { unfold set_parameters, _set_parameters. apply loop_preserves.
      - intros b s [Hal Hs]. split.
        + destruct (set_parameters_atomically_same_api b s) as (_ & -> & _). exact Hal.
        + intros k Hk. apply set_parameters_atomically_no_new_name; [done | by apply Hs].
      - by split. }
    apply HP.
Qed.

Lemma set_never_declares_witness :
  dom (_parameters (set_parameters_atomically
                      [int_param "a" 2; unset_param "a"] (node_a1 false)).1)
    ⊆ dom (_parameters (node_a1 false))
  ∧ dom (_parameters (set_parameters
                        [int_param "a" 2; int_param "b" 3] (node_a1 false)).1)
    ⊆ dom (_parameters (node_a1 false)).
Proof.
  split.
  - apply (proj1 (set_never_declares [int_param "a" 2; unset_param "a"] (node_a1 false)
                    eq_refl)).
  - apply (proj2 (set_never_declares [int_param "a" 2; int_param "b" 3] (node_a1 false)
                    eq_refl)).
Defined.

(** ** Parameters are stored under their own name *)

Lemma keyed_after_batch (l : list Param) (self self' : Node) :
  keyed_by_name self →
  (∀ k, _parameters self' !! k = after_batch l (_parameters self) k) →
  keyed_by_name self'.
Proof.
  intros Hkey Hl k p. simpl. rewrite Hl. unfold after_batch.
  destruct (last_entry k l) as [q |] eqn:Hq.
  - case_decide; [done |]. intros [= <-]. by apply last_entry_Some in Hq as [_ ?].
  - apply Hkey.
Qed.

Lemma atomically_keyed (l : list Param) : preserves keyed_by_name (_set_parameters_atomically l).
Proof.
  intros self Hkey. destruct (successful (callback_result self l)) eqn:H.
  - eapply keyed_after_batch; [exact Hkey |]. intros k. by apply atomically_lookup.
  - by rewrite atomically_rejected.
Qed.

Lemma set_parameters_atomically_keyed (l : list Param) :
  preserves keyed_by_name (set_parameters_atomically l).
Proof.
  intros self Hkey. unfold set_parameters_atomically.
  destruct (negb _ && _); [exact Hkey | by apply atomically_keyed].
Qed.

(** When every parameter of the dictionary is stored under its own name, it
    is still so after declare, set, set-atomically and undeclare, however
    they end.  What [get_parameter] returns for a name carries that name,
    and so does what [get_parameter_or] returns when the name is stored or
    when no alternative is given; for an absent name [get_parameter_or]
    returns the alternative it was given as it is, whatever name that one
    carries. *)
Theorem parameters_stay_keyed_by_name
    (validator : string → option (string * Z)) (self : Node) :
  keyed_by_name self →
  (∀ ns tuples, keyed_by_name (declare_parameters validator ns tuples self).1)
  ∧ (∀ l, keyed_by_name (set_parameters l self).1)
  ∧ (∀ l, keyed_by_name (set_parameters_atomically l self).1)
  ∧ (∀ k, keyed_by_name (undeclare_parameter k self).1)
  ∧ (∀ k self' p, get_parameter k self = (self', inr p) → name p = k)
  ∧ (∀ k, name (get_parameter_or k None self) = k)
  ∧ (∀ k alternative_value,
       is_Some (_parameters self !! k) →
       name (get_parameter_or k alternative_value self) = k)
  ∧ (∀ k alternative_value,
       _parameters self !! k = None →
       get_parameter_or k (Some alternative_value) self = alternative_value).
Proof.
  intros Hkey. repeat split.
  - intros ns tuples. apply declare_parameters_preserves; [| exact Hkey].
    apply atomically_keyed.
  - intros l. unfold set_parameters, _set_parameters.
    apply loop_preserves; [apply set_parameters_atomically_keyed | exact Hkey].
  - intros l. by apply set_parameters_atomically_keyed.
  - intros k. unfold undeclare_parameter.
    destruct (_parameters self !! k) as [p |] eqn:Hk; [| exact Hkey].
    destruct (read_only (descriptor p)); [exact Hkey |].
    intros k' q. simpl. intros Hq. apply lookup_delete_Some in Hq as [_ Hq].
    by apply Hkey in Hq.
  - intros k self' p. unfold get_parameter.
    destruct (_parameters self !! k) as [q |] eqn:Hk.
    + intros [= _ <-]. by apply Hkey in Hk.
    + destruct (_allow_undeclared_parameters self); [| done]. by intros [= _ <-].
  - intros k. unfold get_parameter_or.
    destruct (_parameters self !! k) as [q |] eqn:Hk; simpl; [| done].
    by apply Hkey in Hk.
  - intros k alt [q Hk]. unfold get_parameter_or. rewrite Hk. simpl.
    by apply Hkey in Hk.
  - intros k alt Hk. unfold get_parameter_or. by rewrite Hk.
Qed.

Lemma parameters_stay_keyed_by_name_witness :
  (∀ ns tuples, keyed_by_name (declare_parameters sample_validator ns tuples (node_a1 true)).1)
  ∧ (∀ l, keyed_by_name (set_parameters l (node_a1 true)).1)
  ∧ (∀ l, keyed_by_name (set_parameters_atomically l (node_a1 true)).1)
  ∧ (∀ k, keyed_by_name (undeclare_parameter k (node_a1 true)).1)
  ∧ (∀ k self' p, get_parameter k (node_a1 true) = (self', inr p) → name p = k)
  ∧ (∀ k, name (get_parameter_or k None (node_a1 true)) = k)
  ∧ (∀ k alternative_value,
       is_Some (_parameters (node_a1 true) !! k) →
       name (get_parameter_or k alternative_value (node_a1 true)) = k)
  ∧ (∀ k alternative_value,
       _parameters (node_a1 true) !! k = None →
       get_parameter_or k (Some alternative_value) (node_a1 true) = alternative_value).
Proof.
  apply (parameters_stay_keyed_by_name sample_validator (node_a1 true)).
  unfold keyed_by_name, node_a1. simpl. apply map_Forall_singleton. reflexivity.
Defined.

(** ** Published events are only ever appended *)

Lemma published_more_refl (self : Node) : published_more self self.
Proof. exists []. by rewrite app_nil_r, Nat.add_0_r. Qed.

Lemma published_more_trans (a b c : Node) :
  published_more a b → published_more b c → published_more a c.
Proof.
  intros (e1 & P1 & R1 & N1) (e2 & P2 & R2 & N2). exists (e1 ++ e2)%list.
  rewrite P2, P1, R2, R1, N2, N1, length_app, app_assoc. repeat split; lia.
Qed.

Lemma only_publishes_bind {A B : Type} (m : M A) (k : A → M B) :
  only_publishes m → (∀ a, only_publishes (k a)) → only_publishes (bind m k).
Proof.
  intros Hm Hk self. unfold bind. specialize (Hm self).
  destruct (m self) as [s [e | a]]; simpl in *; [done |].
  eapply published_more_trans; [exact Hm | apply Hk].
Qed.

Lemma only_publishes_unchanged {A : Type} (m : M A) :
  (∀ self, (m self).1 = self) → only_publishes m.
Proof. intros H self. rewrite H. apply published_more_refl. Qed.

Lemma atomically_only_publishes (l : list Param) : only_publishes (_set_parameters_atomically l).
Proof.
  intros self. destruct (successful (callback_result self l)) eqn:Hacc.
  - pose proof (atomically_published l self Hacc) as Hpub. simpl in Hpub.
    eexists [_]. split; [exact Hpub |].
    rewrite atomically_accepted by done.
    destruct (set_each_frame l self (initial_event self)) as ((_ & _ & Hc & _) & _).
    unfold stamp_and_publish, now. simpl. rewrite Hc. split; [done | lia].
  - rewrite atomically_rejected by done. apply published_more_refl.
Qed.

Lemma set_parameters_atomically_only_publishes (l : list Param) :
  only_publishes (set_parameters_atomically l).
Proof.
  intros self. unfold set_parameters_atomically. destruct (negb _ && _).
  - apply published_more_refl.
  - apply atomically_only_publishes.
Qed.

Lemma loop_only_publishes (f : list Param → M SetParametersResult) (r : bool)
    (l : list Param) (acc : list SetParametersResult) :
  (∀ b, only_publishes (f b)) → only_publishes (_set_parameters_loop f r l acc).
Proof.
  intros Hf. revert acc. induction l as [| p l IH]; intros acc; simpl.
  - apply only_publishes_unchanged. by intros self.
  - apply only_publishes_bind; [apply Hf |]. intros res.
    destruct (r && negb (successful res)); [| apply IH].
    apply only_publishes_unchanged. by intros self.
Qed.

Lemma describe_parameters_unchanged (names : list string) (self : Node) :
  (describe_parameters names self).1 = self.
Proof.
  unfold describe_parameters. induction names as [| k names IH]; simpl; [done |].
  unfold bind at 1.
  assert (Hk : (describe_parameter k self).1 = self).
  { unfold describe_parameter. destruct (_parameters self !! k); [done |].
    by destruct (_allow_undeclared_parameters self). }
  destruct (describe_parameter k self) as [s1 [e | p]]; simpl in Hk; subst s1; [done |].
  unfold bind. destruct (mapM describe_parameter names self) as [s2 [e | ps]];
    simpl in *; by subst.
Qed.

(** No parameter method ever drops, reorders or rewrites an event already
    published: after declare, set, set-atomically the published messages are
    the earlier ones followed by the new ones, with the clock read once per
    new message; undeclare, get and describe publish nothing and leave the
    clock alone. *)
Theorem events_are_only_appended
    (validator : string → option (string * Z)) (self : Node) :
  (∀ ns tuples, published_more self (declare_parameters validator ns tuples self).1)
  ∧ (∀ l, published_more self (set_parameters l self).1)
  ∧ (∀ l, published_more self (set_parameters_atomically l self).1)
  ∧ (∀ k, same_frame (undeclare_parameter k self).1 self)
  ∧ (∀ names, (get_parameters names self).1 = self)
  ∧ (∀ names, (describe_parameters names self).1 = self).
Proof.
  split; [| split; [| split; [| split; [| split]]]].
  - intros ns tuples. revert self. change (only_publishes (declare_parameters validator ns tuples)).
    unfold declare_parameters. apply only_publishes_bind.
    + apply only_publishes_unchanged. intros self.
      by apply (build_parameter_list_preserves validator (λ s, s = self)).
    + intros pl self. destruct (any_gen _).1; [apply published_more_refl |].
      revert self. apply only_publishes_bind.
      * unfold _set_parameters. apply loop_only_publishes, atomically_only_publishes.
      * intros _. apply only_publishes_unchanged, get_parameters_unchanged.
  - intros l. unfold set_parameters, _set_parameters.
    apply loop_only_publishes, set_parameters_atomically_only_publishes.
  - intros l. apply set_parameters_atomically_only_publishes.
  - intros k. unfold undeclare_parameter.
    destruct (_parameters self !! k) as [p |]; [| apply same_frame_refl].
    destruct (read_only (descriptor p)); [apply same_frame_refl |].
    apply same_frame_with_parameters.
  - intros names. apply get_parameters_unchanged.
  - intros names. apply describe_parameters_unchanged.
Qed.

(** ** Describing parameters *)

Lemma describe_parameters_present (names : list string) (ds : list ParameterDescriptor)
    (self : Node) :
  Forall2 (λ k d, ∃ p, _parameters self !! k = Some p ∧ descriptor p = d) names ds →
  describe_parameters names self = (self, inr ds).
Proof.
  unfold describe_parameters. induction 1 as [| k d names ds (p & Hk & Hd) _ IH]; [done |].
  simpl. unfold bind at 1. unfold describe_parameter at 1. rewrite Hk, Hd.
  unfold bind at 1. by rewrite IH.
Qed.

Lemma describe_parameters_allowed (names : list string) (self : Node) :
  _allow_undeclared_parameters self = true →
  describe_parameters names self
    = (self, inr ((λ k, match _parameters self !! k with
                         | Some p => descriptor p
                         | None => default_descriptor
                         end) <$> names)).
Proof.
  intros Hallow. unfold describe_parameters.
  induction names as [| k names IH]; [done |].
  simpl. unfold bind at 1. unfold describe_parameter at 1.
  destruct (_parameters self !! k); [| rewrite Hallow];
    unfold bind at 1; by rewrite IH.
Qed.

Lemma describe_parameters_first_missing (pre : list string) (k : string)
    (post : list string) (self : Node) :
  _allow_undeclared_parameters self = false →
  (∀ k', k' ∈ pre → is_Some (_parameters self !! k')) →
  _parameters self !! k = None →
  describe_parameters (pre ++ k :: post) self
    = (self, inl (ParameterNotDeclaredException (ArgName k))).
Proof.
  intros Hallow Hpre Hk. unfold describe_parameters.
  induction pre as [| k0 pre IH]; simpl.
  - unfold bind at 1. unfold describe_parameter at 1. by rewrite Hk, Hallow.
  - destruct (Hpre k0) as [p Hp]; [left |].
    unfold bind at 1. unfold describe_parameter at 1. rewrite Hp.
    unfold bind at 1. rewrite IH; [done |]. intros k' Hk'. apply Hpre. by right.
Qed.

(** [describe_parameters] gives, in order, the descriptor stored with each
    name.  Where undeclared parameters are allowed an absent name gets the
    default descriptor and the call always returns; where they are
    disallowed the call raises for the first absent name in the list. *)
Theorem describe_parameters_total_or_first_missing (names : list string) (self : Node) :
  ((∀ k, k ∈ names → is_Some (_parameters self !! k)) →
   ∃ ds, describe_parameters names self = (self, inr ds)
         ∧ Forall2 (λ k d, ∃ p, _parameters self !! k = Some p ∧ descriptor p = d) names ds)
  ∧ (_allow_undeclared_parameters self = true →
     describe_parameters names self
       = (self, inr ((λ k, match _parameters self !! k with
                            | Some p => descriptor p
                            | None => default_descriptor
                            end) <$> names)))
  ∧ (_allow_undeclared_parameters self = false →
     ∀ pre k post,
       names = (pre ++ k :: post)%list →
       (∀ k', k' ∈ pre → is_Some (_parameters self !! k')) →
       _parameters self !! k = None →
       describe_parameters names self
         = (self, inl (ParameterNotDeclaredException (ArgName k)))).
Proof.
  split; [| split].
  - intros Hall. destruct (lookups_exist names (_parameters self) Hall) as [ps Hps].
    exists (descriptor <$> ps).
    assert (HF : Forall2 (λ k d, ∃ p, _parameters self !! k = Some p ∧ descriptor p = d)
                   names (descriptor <$> ps)).
    { apply Forall2_fmap_r. eapply Forall2_impl; [exact Hps |].
      intros k p Hk. by exists p. }
    split; [by apply describe_parameters_present | exact HF].
  - by apply describe_parameters_allowed.
  - intros Hallow pre k post -> Hpre Hk. by apply describe_parameters_first_missing.
Qed.

Lemma describe_parameters_total_or_first_missing_witness :
  describe_parameters ["a"; "b"] (node_read_only_a1 true)
    = (node_read_only_a1 true,
       inr [ {| description := "fixed"; read_only := true |}; default_descriptor ])
  ∧ describe_parameters ["a"; "b"; "a"] (node_read_only_a1 false)
    = (node_read_only_a1 false, inl (ParameterNotDeclaredException (ArgName "b"))).
Proof.
  split.
  - apply (proj1 (proj2 (describe_parameters_total_or_first_missing
                           ["a"; "b"] (node_read_only_a1 true)))).
    reflexivity.
  - apply (proj2 (proj2 (describe_parameters_total_or_first_missing
                           ["a"; "b"; "a"] (node_read_only_a1 false)))
             eq_refl ["a"] "b" ["a"]); [reflexivity | | reflexivity].
    intros k' Hk'. apply list_elem_of_singleton in Hk' as ->. by eexists.
Defined.

(** ** A set replaces the descriptor *)

(** An accepted set of a parameter with a value, on a name already stored,
    stores the new parameter whole: [describe_parameter] then gives the
    descriptor the new parameter carries, not the one the name was declared
    with.  So after such a set with a descriptor that is not read-only,
    [undeclare_parameter] succeeds, whether or not the parameter had been
    declared read-only. *)
Theorem set_replaces_descriptor (self : Node) (k : string) (q p : Param) :
  _parameters self !! k = Some q →
  name p = k →
  value p ≠ PV_NOT_SET →
  successful (callback_result self [p]) = true →
  ∃ self',
    set_parameters_atomically [p] self = (self', inr (callback_result self [p]))
    ∧ describe_parameter k self' = (self', inr (descriptor p))
    ∧ (read_only (descriptor p) = false →
       ∃ self'', undeclare_parameter k self' = (self'', inr tt)
                 ∧ _parameters self'' !! k = None).
Proof.
  intros Hk Hname Hval Hacc.
  assert (Hdecl : set_parameters_atomically [p] self = _set_parameters_atomically [p] self).
  { apply set_parameters_atomically_declared. intros x Hx.
    apply list_elem_of_singleton in Hx as ->. rewrite Hname, Hk. by eexists. }
  pose proof (atomically_returns [p] self) as Hret.
  pose proof (atomically_lookup [p] self k Hacc) as Hlk.
  unfold after_batch in Hlk. simpl in Hlk. rewrite decide_True in Hlk by done.
  rewrite decide_False in Hlk by (by rewrite type_not_set).
  destruct (_set_parameters_atomically [p] self) as [s1 r1]. simpl in Hret, Hlk. subst r1.
  exists s1. split; [exact Hdecl |]. split.
  - unfold describe_parameter. by rewrite Hlk.
  - intros Hro. exists (with_parameters s1 (delete k (_parameters s1))). split.
    + unfold undeclare_parameter. by rewrite Hlk, Hro.
    + apply lookup_delete_eq.
Qed.

Lemma set_replaces_descriptor_witness :
  ∃ self',
    set_parameters_atomically [int_param "a" 7] (node_read_only_a1 false)
      = (self', inr SetParametersResult_ok)
    ∧ describe_parameter "a" self' = (self', inr default_descriptor)
    ∧ (read_only default_descriptor = false →
       ∃ self'', undeclare_parameter "a" self' = (self'', inr tt)
                 ∧ _parameters self'' !! "a" = None).
Proof.
  apply (set_replaces_descriptor (node_read_only_a1 false) "a" read_only_a1
           (int_param "a" 7)); [reflexivity | reflexivity | discriminate | reflexivity].
Defined.

(** ** What a successful declare stores, returns and publishes *)

Lemma atomically_clock (l : list Param) (self : Node) :
  successful (callback_result self l) = true →
  readings (_clock (_set_parameters_atomically l self).1) = readings (_clock self)
  ∧ reads (_clock (_set_parameters_atomically l self).1) = S (reads (_clock self)).
Proof.
  intros Hacc. rewrite atomically_accepted by done.
  destruct (set_each_frame l self (initial_event self)) as ((_ & _ & Hc & _) & _).
  unfold stamp_and_publish, now. simpl. by rewrite Hc.
Qed.

Lemma fully_qualified_path_same (a b : Node) :
  same_api a b → fully_qualified_path a = fully_qualified_path b.
Proof. intros (_ & _ & Hn & Hns). unfold fully_qualified_path. by rewrite Hn, Hns. Qed.

(** The event published for one accepted parameter with a value whose name
    had none. *)
Lemma atomically_single_new (q : Param) (self : Node) :
  successful (callback_result self [q]) = true →
  NOT_SET ≠ type_ q →
  _parameters self !! name q = None →
  _parameter_event_publisher (_set_parameters_atomically [q] self).1
    = (_parameter_event_publisher self ++
       [ {| stamp := readings (_clock self) (reads (_clock self));
            node := fully_qualified_path self;
            new_parameters := [to_parameter_msg q];
            changed_parameters := [];
            deleted_parameters := [] |} ])%list.
Proof.
  intros Hacc Hset Habs.
  rewrite (atomically_published [q] self Hacc).
  destruct (set_each_events [q] self (initial_event self)) as (E1 & E2 & E3).
  { simpl. apply NoDup_singleton. }
  rewrite E1, E2, E3. simpl.
  assert (Hnot : ¬ had_value self (name q)).
  { unfold had_value, get_parameter_or. rewrite Habs. simpl. tauto. }
  unfold new_of, changed_of, deleted_of.
  rewrite (filter_cons_True _ q) by tauto.
  rewrite (filter_cons_False _ q) by tauto.
  rewrite (filter_cons_False _ q) by tauto.
  by rewrite !filter_nil.
Qed.

Lemma loop_declares_events (r : bool) (l : list Param) (self : Node) :
  NoDup (name <$> l) →
  (∀ q, q ∈ l → successful (callback_result self [q]) = true) →
  (∀ q, q ∈ l → NOT_SET ≠ type_ q) →
  (∀ q, q ∈ l → _parameters self !! name q = None) →
  _parameter_event_publisher
    (_set_parameters_loop _set_parameters_atomically r l [] self).1
  = (_parameter_event_publisher self ++
     imap (λ i q, {| stamp := readings (_clock self) (reads (_clock self) + i);
                     node := fully_qualified_path self;
                     new_parameters := [to_parameter_msg q];
                     changed_parameters := [];
                     deleted_parameters := [] |}) l)%list.
Proof.
  revert self. induction l as [| q l IH]; intros self Hnd Hacc Hset Habs.
  - simpl. by rewrite app_nil_r.
  - rewrite fmap_cons in Hnd. apply NoDup_cons in Hnd as [Hq Hnd].
    assert (Haq : successful (callback_result self [q]) = true) by (apply Hacc; left).
    pose proof (atomically_returns [q] self) as Hret.
    pose proof (atomically_same_api [q] self) as Hapi.
    pose proof (atomically_single_new q self Haq) as Hpub.
    pose proof (atomically_clock [q] self Haq) as [Hrd Hrs].
    pose proof (atomically_single_lookup q self) as Hlk.
    destruct (_set_parameters_atomically [q] self) as [s1 r1] eqn:Hcall.
    simpl in Hret, Hapi, Hpub, Hrd, Hrs, Hlk. subst r1.
    rewrite loop_cons, Hcall, Haq, andb_false_r.
    specialize (IH s1 Hnd).
    destruct (_set_parameters_loop _set_parameters_atomically r l [] s1) as [s [e | rs]];
      simpl in IH |- *; rewrite IH, Hpub.
    all: try (intros q' Hq'; rewrite (callback_result_same s1 self) by apply Hapi;
              apply Hacc; by right).
    all: try (intros q' Hq'; apply Hset; by right).
    all: try (intros q' Hq'; rewrite Hlk;
              [apply Habs; by right
              | intros Heq; apply Hq; rewrite Heq; by apply list_elem_of_fmap_2]).
    all: try (apply Hset; left).
    all: try (apply Habs; left).
    all: rewrite <- app_assoc; simpl; rewrite Nat.add_0_r; do 2 f_equal;
      apply imap_ext; intros i q' _; simpl;
      rewrite Hrd, Hrs, (fully_qualified_path_same s1 self) by done;
      do 2 f_equal; lia.
Qed.

(** A declare of valid, pairwise distinct, not yet declared names with
    values, each accepted by the callback: the list returned is exactly the
    parameters built from the tuples, in order; [describe_parameters] on the
    names then gives back the descriptors of the tuples; and one event per
    tuple has been published, in order, the [i]-th stamped with the [i]-th
    next clock reading and reporting the parameter as new, with nothing
    changed or deleted. *)
Theorem declare_stores_returns_and_publishes
    (validator : string → option (string * Z)) (ns : string)
    (tuples : list (string * ParameterValue * ParameterDescriptor)) (self : Node) :
  (∀ u, u ∈ tuples → validator (ns +:+ u.1.1) = None) →
  (∀ u, u ∈ tuples → _parameters self !! (ns +:+ u.1.1) = None) →
  (∀ u, u ∈ tuples → successful (callback_result self [declared_parameter ns u]) = true) →
  (∀ u, u ∈ tuples → u.1.2 ≠ PV_NOT_SET) →
  NoDup ((λ u, ns +:+ u.1.1) <$> tuples) →
  ∃ self',
    declare_parameters validator ns tuples self
      = (self', inr (declared_parameter ns <$> tuples))
    ∧ describe_parameters ((λ u, ns +:+ u.1.1) <$> tuples) self'
      = (self', inr ((λ u, u.2) <$> tuples))
    ∧ _parameter_event_publisher self'
      = (_parameter_event_publisher self ++ imap (declared_event self ns) tuples)%list.
Proof.
  intros Hv Habs Hacc Hval Hnd.
  destruct (declare_parameters_accepted validator ns tuples self Hv Habs Hacc Hval)
    as (self' & ps & Hcall & Hlk & Hps).
  assert (Hnd' : NoDup (name <$> (declared_parameter ns <$> tuples))).
  { by rewrite <- list_fmap_compose. }
  assert (Hstored : ∀ u, u ∈ tuples →
            _parameters self' !! (ns +:+ u.1.1) = Some (declared_parameter ns u)).
  { intros u Hu. rewrite Hlk.
    change (ns +:+ u.1.1) with (name (declared_parameter ns u)).
    rewrite after_batch_unique.
    - rewrite decide_False; [done |]. rewrite type_not_set. by apply Hval.
    - by apply list_elem_of_fmap_2.
    - intros q Hq Hn. apply (names_unique (declared_parameter ns <$> tuples)); try done.
      by apply list_elem_of_fmap_2. }
  assert (Hps' : ps = declared_parameter ns <$> tuples).
  { clear Hcall. revert Hstored. clear -Hps. induction Hps as [| u p tuples ps Hu _ IH].
    - done.
    - intros Hstored. rewrite fmap_cons. f_equal.
      + rewrite (Hstored u) in Hu by left. by injection Hu.
      + apply IH. intros w Hw. apply Hstored. by right. }
  subst ps. exists self'. split; [exact Hcall |]. split.
  - apply describe_parameters_present. apply Forall2_fmap.
    apply Forall_Forall2_diag. apply Forall_forall. intros u Hu.
    exists (declared_parameter ns u). split; [by apply Hstored | done].
  - rewrite declare_parameters_unfold in Hcall by done.
    pose proof (loop_declares_events true (declared_parameter ns <$> tuples) self Hnd')
      as Hev.
    destruct (_set_parameters_loop _set_parameters_atomically true
                (declared_parameter ns <$> tuples) [] self) as [s [e | rs]];
      [discriminate Hcall |].
    pose proof (get_parameters_unchanged ((λ u, ns +:+ u.1.1) <$> tuples) s) as Hsame.
    rewrite Hcall in Hsame. simpl in Hsame. subst s. simpl in Hev.
    rewrite Hev.
    + f_equal. rewrite imap_fmap. by apply imap_ext.
    + intros q Hq. apply list_elem_of_fmap in Hq as (u & -> & Hu). by apply Hacc.
    + intros q Hq. apply list_elem_of_fmap in Hq as (u & -> & Hu).
      rewrite type_not_set. by apply Hval.
    + intros q Hq. apply list_elem_of_fmap in Hq as (u & -> & Hu). by apply Habs.
Qed.

Lemma declare_stores_returns_and_publishes_witness :
  ∃ self',
    declare_parameters sample_validator "robot." [int_tuple "a" 1; int_tuple "b" 2]
      (fresh_node false)
      = (self', inr [int_param "robot.a" 1; int_param "robot.b" 2])
    ∧ describe_parameters ["robot.a"; "robot.b"] self'
      = (self', inr [default_descriptor; default_descriptor])
    ∧ _parameter_event_publisher self'
      = [ {| stamp := 1000; node := "/talker";
             new_parameters := [to_parameter_msg (int_param "robot.a" 1)];
             changed_parameters := []; deleted_parameters := [] |};
          {| stamp := 1001; node := "/talker";
             new_parameters := [to_parameter_msg (int_param "robot.b" 2)];
             changed_parameters := []; deleted_parameters := [] |} ].
Proof.
  apply (declare_stores_returns_and_publishes sample_validator "robot."
           [int_tuple "a" 1; int_tuple "b" 2] (fresh_node false)).
  - intros u Hu. repeat (apply elem_of_cons in Hu as [-> | Hu]);
      try reflexivity; by apply elem_of_nil in Hu.
  - intros u Hu. repeat (apply elem_of_cons in Hu as [-> | Hu]);
      try reflexivity; by apply elem_of_nil in Hu.
  - intros u Hu. repeat (apply elem_of_cons in Hu as [-> | Hu]);
      try reflexivity; by apply elem_of_nil in Hu.
  - intros u Hu. repeat (apply elem_of_cons in Hu as [-> | Hu]);
      try discriminate; by apply elem_of_nil in Hu.
  - by apply (bool_decide_unpack _); vm_compute.
Defined.

(** * Properties of the entity methods *)

Section EntityProperties.

Context `{EntityTypes}.

Lemma list_remove_split {E : Type} `{!EqDecision E} (x : E) (pre post : list E) :
  x ∉ pre → list_remove x (pre ++ x :: post) = Some (pre ++ post)%list.
Proof.
  induction pre as [| y pre IH]; intros Hx; simpl.
  - by rewrite decide_True.
  - apply not_elem_of_cons in Hx as [Hne Hx].
    rewrite decide_False by congruence. by rewrite IH.
Qed.

Lemma list_remove_absent {E : Type} `{!EqDecision E} (x : E) (l : list E) :
  x ∉ l → list_remove x l = None.
Proof.
  induction l as [| y l IH]; intros Hx; simpl; [done |].
  apply not_elem_of_cons in Hx as [Hne Hx].
  rewrite decide_False by congruence. by rewrite IH.
Qed.

Lemma first_with_handle_split {E : Type} (handle_of : E → Handle) (target : Handle)
    (pre : list E) (e : E) (post : list E) :
  (∀ y, y ∈ pre → handle_of y ≠ target) →
  handle_of e = target →
  first_with_handle handle_of target (pre ++ e :: post) = Some e.
Proof.
  induction pre as [| y pre IH]; intros Hpre He; simpl.
  - by rewrite decide_True.
  - rewrite decide_False by (apply Hpre; left).
    apply IH; [| done]. intros z Hz. apply Hpre. by right.
Qed.

Lemma first_with_handle_none {E : Type} (handle_of : E → Handle) (target : Handle)
    (l : list E) :
  (∀ y, y ∈ l → handle_of y ≠ target) → first_with_handle handle_of target l = None.
Proof.
  induction l as [| y l IH]; intros Hl; simpl; [done |].
  rewrite decide_False by (apply Hl; left).
  apply IH. intros z Hz. apply Hl. by right.
Qed.

Lemma found_not_before {E : Type} (handle_of : E → Handle) (x e : E) (pre : list E) :
  (∀ y, y ∈ pre → handle_of y ≠ handle_of x) → handle_of e = handle_of x → e ∉ pre.
Proof. intros Hpre He Hin. apply (Hpre e Hin). exact He. Qed.

(** [destroy_publisher], [destroy_client], [destroy_service], [destroy_timer]
    and [destroy_guard_condition] look for the first entity of their list
    whose handle equals the handle of the argument.  If there is one they
    make the native destroy call(s) for it (for a timer, for its handle and
    for its clock's handle), remove that entity and no other from the list,
    leave everything else as it was and return [True]; it need not be the
    object passed.  If there is none they return [False] and change
    nothing.  They never raise. *)
Theorem destroy_by_handle_removes_first_match :
  removes_first_match publisher_handle publishers set_publishers
    (λ pub self, [rclpy_destroy_node_entity (publisher_handle pub) (_handle self)])
    destroy_publisher
  ∧ removes_first_match client_handle clients set_clients
      (λ cli self, [rclpy_destroy_node_entity (client_handle cli) (_handle self)])
      destroy_client
  ∧ removes_first_match service_handle services set_services
      (λ srv self, [rclpy_destroy_node_entity (service_handle srv) (_handle self)])
      destroy_service
  ∧ removes_first_match timer_handle timers set_timers
      (λ tmr self, [rclpy_destroy_entity (timer_handle tmr);
                    rclpy_destroy_entity (timer_clock_handle tmr)])
      destroy_timer
  ∧ removes_first_match guard_handle guards set_guards
      (λ gc self, [rclpy_destroy_entity (guard_handle gc)])
      destroy_guard_condition.
Proof.
  repeat apply conj; intros x self; split.
  all: try (intros pre e post Hl Hpre He;
            unfold destroy_publisher, destroy_client, destroy_service, destroy_timer,
              destroy_guard_condition;
            rewrite Hl, first_with_handle_split by done; simpl;
            rewrite Hl, list_remove_split by (by eapply found_not_before);
            reflexivity).
  all: intros Hnone;
    unfold destroy_publisher, destroy_client, destroy_service, destroy_timer,
      destroy_guard_condition;
    by rewrite first_with_handle_none.
Qed.

(** [destroy_subscription] goes by the object, not by a handle: when the
    subscription is in the list its first occurrence is removed, its
    [destroy] is called and [True] returned; when it is not, [False] is
    returned and nothing changes. *)
Theorem destroy_subscription_goes_by_object (subscription : Subscription)
    (self : EntityNode) :
  (∀ pre post,
     subscriptions self = (pre ++ subscription :: post)%list →
     subscription ∉ pre →
     destroy_subscription subscription self
       = (call_native [subscription_destroy subscription]
            (set_subscriptions (pre ++ post)%list self), inr true))
  ∧ (subscription ∉ subscriptions self →
     destroy_subscription subscription self = (self, inr false)).
Proof.
  split.
  - intros pre post Hl Hpre. unfold destroy_subscription.
    rewrite decide_True.
    + by rewrite Hl, list_remove_split.
    + rewrite Hl. apply elem_of_app. right. left.
  - intros Hout. unfold destroy_subscription. by rewrite decide_False.
Qed.

Lemma pop_snoc {E : Type} (l : list E) (x : E) : pop (l ++ [x]) = Some (x, l).
Proof. unfold pop. by rewrite reverse_snoc, reverse_involutive. Qed.

Lemma drain_all {E : Type} (destroy : E → list NativeCall) (l : list E)
    (calls : list NativeCall) :
  drain (length l) destroy l calls = ([], (calls ++ flat_map destroy (reverse l))%list).
Proof.
  revert calls. induction l as [| x l IH] using rev_ind; intros calls.
  - simpl. by rewrite app_nil_r.
  - rewrite length_app. simpl. rewrite Nat.add_1_r. simpl.
    rewrite pop_snoc, IH, reverse_snoc. simpl. by rewrite app_assoc.
Qed.

Lemma flat_map_singleton {A B : Type} (g : A → B) (l : list A) :
  flat_map (λ x, [g x]) l = g <$> l.
Proof. induction l as [| x l IH]; simpl; [done | by rewrite IH]. Qed.

(** [destroy_node] on a node that has a handle returns [True] and leaves the
    six entity lists empty and the handle unset.  Every entity has been
    destroyed exactly once: publishers first, then subscriptions, clients,
    services, timers (handle, then clock handle) and guard conditions, each
    kind from the most recently created to the oldest, and last the node
    handle itself.  The waitables are left as they were.  A second
    [destroy_node], or one on a node without handle, returns [True] and does
    nothing. *)
Theorem destroy_node_destroys_each_entity_once (self : EntityNode) :
  (∀ h, _handle self = Some h →
     destroy_node self =
       ({| _handle := None;
           publishers := []; subscriptions := []; clients := []; services := [];
           timers := []; guards := [];
           waitables := waitables self;
           parameter_event_publisher_kept := false;
           native_calls :=
             (native_calls self
              ++ ((λ pub, rclpy_destroy_node_entity (publisher_handle pub) (Some h))
                    <$> reverse (publishers self))
              ++ (subscription_destroy <$> reverse (subscriptions self))
              ++ ((λ cli, rclpy_destroy_node_entity (client_handle cli) (Some h))
                    <$> reverse (clients self))
              ++ ((λ srv, rclpy_destroy_node_entity (service_handle srv) (Some h))
                    <$> reverse (services self))
              ++ flat_map (λ tmr, [rclpy_destroy_entity (timer_handle tmr);
                                   rclpy_destroy_entity (timer_clock_handle tmr)])
                   (reverse (timers self))
              ++ ((λ gc, rclpy_destroy_entity (guard_handle gc)) <$> reverse (guards self))
              ++ [rclpy_destroy_entity h])%list |},
        true))
  ∧ (_handle self = None → destroy_node self = (self, true))
  ∧ destroy_node (destroy_node self).1 = ((destroy_node self).1, true).
Proof.
  assert (Hsome : ∀ h, _handle self = Some h →
     destroy_node self =
       ({| _handle := None;
           publishers := []; subscriptions := []; clients := []; services := [];
           timers := []; guards := [];
           waitables := waitables self;
           parameter_event_publisher_kept := false;
           native_calls :=
             (native_calls self
              ++ ((λ pub, rclpy_destroy_node_entity (publisher_handle pub) (Some h))
                    <$> reverse (publishers self))
              ++ (subscription_destroy <$> reverse (subscriptions self))
              ++ ((λ cli, rclpy_destroy_node_entity (client_handle cli) (Some h))
                    <$> reverse (clients self))
              ++ ((λ srv, rclpy_destroy_node_entity (service_handle srv) (Some h))
                    <$> reverse (services self))
              ++ flat_map (λ tmr, [rclpy_destroy_entity (timer_handle tmr);
                                   rclpy_destroy_entity (timer_clock_handle tmr)])
                   (reverse (timers self))
              ++ ((λ gc, rclpy_destroy_entity (guard_handle gc)) <$> reverse (guards self))
              ++ [rclpy_destroy_entity h])%list |},
        true)).
  { intros h Hh. unfold destroy_node. rewrite Hh.
    rewrite !drain_all. rewrite !flat_map_singleton.
    by rewrite <- !app_assoc. }
  split; [exact Hsome |]. split.
  - intros Hnone. unfold destroy_node. by rewrite Hnone.
  - destruct (_handle self) as [h |] eqn:Hh.
    + by rewrite (Hsome h).
    + unfold destroy_node. rewrite Hh. simpl. by rewrite Hh.
Qed.

(** [remove_waitable] removes the first occurrence of the waitable and
    raises [ValueError], changing nothing, when there is none.  Adding a
    waitable and removing it again gives the node back when the waitable was
    not in the list; when it was, it is the earlier occurrence that goes and
    the added one stays at the end. *)
Theorem waitables_add_then_remove (waitable : Waitable) (self : EntityNode) :
  (waitable ∉ waitables self →
   remove_waitable waitable self = (self, inl ValueError)
   ∧ remove_waitable waitable (add_waitable waitable self) = (self, inr tt))
  ∧ (∀ pre post,
       waitables self = (pre ++ waitable :: post)%list →
       waitable ∉ pre →
       remove_waitable waitable self = (set_waitables (pre ++ post)%list self, inr tt)
       ∧ remove_waitable waitable (add_waitable waitable self)
         = (set_waitables (pre ++ post ++ [waitable])%list self, inr tt)).
Proof.
  split.
  - intros Hout. split.
    + unfold remove_waitable. by rewrite list_remove_absent.
    + unfold remove_waitable, add_waitable. simpl.
      rewrite list_remove_split by done. rewrite app_nil_r. by destruct self.
  - intros pre post Hl Hpre. split.
    + unfold remove_waitable. by rewrite Hl, list_remove_split.
    + unfold remove_waitable, add_waitable. simpl.
      rewrite Hl, <- app_assoc. simpl. by rewrite list_remove_split.
Qed.

End EntityProperties.

Lemma destroy_by_handle_removes_first_match_witness :
  @destroy_publisher sample_entity_types (99, 101)%nat sample_entity_node
    = (@set_publishers sample_entity_types [(10, 100); (12, 101)]%nat
         (@call_native sample_entity_types [@rclpy_destroy_node_entity sample_entity_types 101%nat (Some 1%nat)] sample_entity_node),
       inr true)
  ∧ @destroy_timer sample_entity_types (40, (7, 8))%nat sample_entity_node
    = (sample_entity_node, inr false).
Proof.
  split.
  - apply (proj1 (proj1 (@destroy_by_handle_removes_first_match sample_entity_types)
                    (99, 101)%nat sample_entity_node)
             [(10, 100)%nat] (11, 101)%nat [(12, 101)%nat]); [reflexivity | | reflexivity].
    intros y Hy. apply list_elem_of_singleton in Hy as ->. discriminate.
  - apply (proj2 (proj1 (proj2 (proj2 (proj2
             (@destroy_by_handle_removes_first_match sample_entity_types))))
             (40, (7, 8))%nat sample_entity_node)).
    intros y Hy. apply list_elem_of_singleton in Hy as ->. discriminate.
Defined.

Lemma destroy_subscription_goes_by_object_witness :
  @destroy_subscription sample_entity_types 21%nat sample_entity_node
    = (@call_native sample_entity_types [@subscription_destroy sample_entity_types 21%nat]
         (@set_subscriptions sample_entity_types [20%nat] sample_entity_node), inr true)
  ∧ @destroy_subscription sample_entity_types 22%nat sample_entity_node
    = (sample_entity_node, inr false).
Proof.
  split.
  - apply (proj1 (@destroy_subscription_goes_by_object sample_entity_types
                    21%nat sample_entity_node) [20%nat] []); [reflexivity |].
    intros Hin. apply list_elem_of_singleton in Hin. discriminate.
  - apply (proj2 (@destroy_subscription_goes_by_object sample_entity_types
                    22%nat sample_entity_node)).
    intros Hin. repeat (apply elem_of_cons in Hin as [Hin | Hin]; [discriminate |]).
    by apply elem_of_nil in Hin.
Defined.

Lemma destroy_node_destroys_each_entity_once_witness :
  @native_calls sample_entity_types (@destroy_node sample_entity_types sample_entity_node).1
    = [ @rclpy_destroy_node_entity sample_entity_types 101%nat (Some 1%nat);
        @rclpy_destroy_node_entity sample_entity_types 101%nat (Some 1%nat);
        @rclpy_destroy_node_entity sample_entity_types 100%nat (Some 1%nat);
        @subscription_destroy sample_entity_types 21%nat;
        @subscription_destroy sample_entity_types 20%nat;
        @rclpy_destroy_node_entity sample_entity_types 300%nat (Some 1%nat);
        @rclpy_destroy_entity sample_entity_types 400%nat;
        @rclpy_destroy_entity sample_entity_types 401%nat;
        @rclpy_destroy_entity sample_entity_types 500%nat;
        @rclpy_destroy_entity sample_entity_types 1%nat ]
  ∧ @waitables sample_entity_types (@destroy_node sample_entity_types sample_entity_node).1 = [60; 61; 60]%nat.
Proof.
  rewrite (proj1 (@destroy_node_destroys_each_entity_once sample_entity_types
                    sample_entity_node) 1%nat eq_refl).
  split; reflexivity.
Defined.

Lemma waitables_add_then_remove_witness :
  @remove_waitable sample_entity_types 62%nat
     (@add_waitable sample_entity_types 62%nat sample_entity_node)
    = (sample_entity_node, inr tt)
  ∧ @remove_waitable sample_entity_types 60%nat
      (@add_waitable sample_entity_types 60%nat sample_entity_node)
    = (@set_waitables sample_entity_types [61; 60; 60]%nat sample_entity_node, inr tt).
Proof.
  split.
  - apply (proj1 (@waitables_add_then_remove sample_entity_types 62%nat sample_entity_node)).
    intros Hin. repeat (apply elem_of_cons in Hin as [Hin | Hin]; [discriminate |]).
    by apply elem_of_nil in Hin.
  - apply (proj2 (@waitables_add_then_remove sample_entity_types 60%nat sample_entity_node)
             [] [61; 60]%nat); [reflexivity |].
    apply not_elem_of_nil.
Defined.

(** * [set_parameters] element by element *)

Lemma set_parameters_atomically_returned (l : list Param) (self s : Node)
    (r : SetParametersResult) :
  set_parameters_atomically l self = (s, inr r) →
  _set_parameters_atomically l self = (s, inr r).
Proof. unfold set_parameters_atomically. by destruct (negb _ && _). Qed.

(** Whenever [set_parameters] returns: the results are the callback's answers
    to the parameters one by one, and the node is the one given with exactly
    the accepted parameters applied in order, one event each. *)
Lemma set_parameters_returned (l : list Param) (self s : Node)
    (rs : list SetParametersResult) :
  set_parameters l self = (s, inr rs) →
  rs = (λ p, callback_result self [p]) <$> l
  ∧ (∀ k, _parameters s !! k = after_batch (accepted_singly self l) (_parameters self) k)
  ∧ length (_parameter_event_publisher s)
    = (length (_parameter_event_publisher self) + length (accepted_singly self l))%nat
  ∧ same_api s self.
Proof.
  unfold set_parameters, _set_parameters.
  revert self s rs. induction l as [| q l IH]; intros self s rs Hcall.
  - simpl in Hcall. injection Hcall as <- <-.
    split; [done |]. split; [done |]. split; [simpl; lia | by unfold same_api].
  - rewrite loop_cons in Hcall.
    destruct (set_parameters_atomically [q] self) as [s1 [e | res]] eqn:Hq;
      [discriminate Hcall |].
    simpl in Hcall.
    destruct (_set_parameters_loop set_parameters_atomically false l [] s1)
      as [s' [e | rs']] eqn:Hloop; [discriminate Hcall |].
    injection Hcall as <- <-.
    apply set_parameters_atomically_returned in Hq.
    pose proof (atomically_returns [q] self) as Hret.
    pose proof (atomically_same_api [q] self) as Hapi.
    rewrite Hq in Hret, Hapi. simpl in Hret, Hapi. injection Hret as ->.
    destruct (IH s1 s' rs' Hloop) as (Hrs & Hlk & Hlen & Hapi').
    rewrite (accepted_singly_same s1 self) in Hlk, Hlen by apply Hapi.
    split; [| split; [| split; [| by eapply same_api_trans]]].
    + rewrite Hrs, fmap_cons. f_equal. apply list_fmap_ext. intros _ p _.
      apply callback_result_same, Hapi.
    + intros k. rewrite Hlk. unfold accepted_singly.
      destruct (successful (callback_result self [q])) eqn:Hacc.
      * rewrite (filter_cons_True _ q) by done. apply after_batch_cons.
        replace s1 with (_set_parameters_atomically [q] self).1 by (by rewrite Hq).
        by apply atomically_lookup.
      * rewrite (filter_cons_False _ q) by (by rewrite Hacc).
        rewrite atomically_rejected in Hq by done. by injection Hq as <-.
    + rewrite Hlen. unfold accepted_singly.
      destruct (successful (callback_result self [q])) eqn:Hacc.
      * rewrite (filter_cons_True _ q) by done.
        pose proof (atomically_published [q] self Hacc) as Hp. rewrite Hq in Hp.
        simpl in Hp. rewrite Hp, length_app. simpl. lia.
      * rewrite (filter_cons_False _ q) by (by rewrite Hacc).
        rewrite atomically_rejected in Hq by done. by injection Hq as <-.
Qed.


Lemma accepted_singly_subset (self : Node) (l : list Param) (q : Param) :
  q ∈ accepted_singly self l → q ∈ l.
Proof. unfold accepted_singly. intros Hq. by apply list_elem_of_filter in Hq as [_ ?]. Qed.

Lemma accepted_singly_names (self : Node) (l : list Param) (k : string) :
  k ∉ name <$> l → k ∉ name <$> accepted_singly self l.
Proof.
  intros Hout Hin. apply Hout. apply list_elem_of_fmap in Hin as (q & -> & Hq).
  apply list_elem_of_fmap_2. by eapply accepted_singly_subset.
Qed.

(** ** [set_parameters] with an undeclared name (C3) *)

(** C3, as amended.  When undeclared parameters are disallowed and some name
    of the list is absent from the dictionary, [set_parameters] raises
    [ParameterNotDeclaredException].  The check is made element by element:
    the list splits into a prefix, the element at which the exception is
    raised, whose name is absent at that moment, and the rest.  The elements
    of the prefix have been set, each subject to the callback, and stay set:
    the dictionary the call ends with is the one it started with, with the
    accepted elements of the prefix applied in order, so an accepted element
    of the prefix not repeated under its name is stored (or, being NOT_SET,
    its name removed); one event was published per accepted element; names
    the prefix does not mention, those of the offending element and of the
    elements after it among them, are as they were. *)
Theorem set_parameters_stops_at_first_undeclared (l : list Param) (self : Node) :
  _allow_undeclared_parameters self = false →
  (∃ p, p ∈ l ∧ _parameters self !! name p = None) →
  ∃ pre p post self' results,
    l = (pre ++ p :: post)%list
    ∧ set_parameters l self = (self', inl (ParameterNotDeclaredException (ArgFlags [])))
    ∧ set_parameters pre self = (self', inr results)
    ∧ length results = length pre
    ∧ _parameters self' !! name p = None
    ∧ results = (λ q, callback_result self [q]) <$> pre
    ∧ (∀ k, _parameters self' !! k
            = after_batch (accepted_singly self pre) (_parameters self) k)
    ∧ (∀ q, q ∈ pre →
            successful (callback_result self [q]) = true →
            (∀ q', q' ∈ pre → name q' = name q → q' = q) →
            _parameters self' !! name q
              = if decide (NOT_SET = type_ q) then None else Some q)
    ∧ (∀ k, k ∉ name <$> pre → _parameters self' !! k = _parameters self !! k)
    ∧ length (_parameter_event_publisher self')
      = (length (_parameter_event_publisher self) + length (accepted_singly self pre))%nat.
Proof.
  intros Hallow Hex.
  destruct (set_parameters_raises_at_undeclared l self Hallow Hex)
    as (pre & p & post & self' & results & Hl & Hfail & Hpre & Hlen & Hnone).
  destruct (set_parameters_returned pre self self' results Hpre)
    as (Hres & Hlk & Hpub & _).
  exists pre, p, post, self', results.
  split; [exact Hl |]. split; [exact Hfail |]. split; [exact Hpre |].
  split; [exact Hlen |]. split; [exact Hnone |]. split; [exact Hres |].
  split; [exact Hlk |]. split; [| split; [| exact Hpub]].
  - intros q Hq Hacc Huniq. rewrite Hlk. apply after_batch_unique.
    + unfold accepted_singly. by apply list_elem_of_filter.
    + intros q' Hq' Hn. apply Huniq; [| done]. by eapply accepted_singly_subset.
  - intros k Hk. rewrite Hlk. apply after_batch_outside. by apply accepted_singly_names.
Qed.

Lemma set_parameters_stops_at_first_undeclared_witness :
  ∃ self',
    set_parameters [int_param "a" 2; int_param "b" 3; int_param "a" 4] (node_a1 false)
      = (self', inl (ParameterNotDeclaredException (ArgFlags [])))
    ∧ _parameters self' !! "a" = Some (int_param "a" 2)
    ∧ _parameters self' !! "b" = None
    ∧ length (_parameter_event_publisher self') = 1%nat.
Proof.
  destruct (set_parameters_stops_at_first_undeclared
              [int_param "a" 2; int_param "b" 3; int_param "a" 4] (node_a1 false))
    as (pre & p & post & self' & results & Hl & Hfail & Hpre & _ & Hnone & _ & _
        & Hset & Hout & Hlen).
  - reflexivity.
  - exists (int_param "b" 3). split; [right; left | reflexivity].
  - assert (Hsplit : pre = [int_param "a" 2] ∧ p = int_param "b" 3).
    { destruct pre as [| x pre].
      - simpl in Hl. injection Hl as <- _.
        vm_compute in Hpre. injection Hpre as <- _. vm_compute in Hnone. discriminate Hnone.
      - injection Hl as <- Hl. destruct pre as [| y pre].
        + simpl in Hl. by injection Hl as <- _.
        + injection Hl as <- Hl. destruct pre as [| z pre].
          * vm_compute in Hpre. discriminate Hpre.
          * injection Hl as _ Hl. by destruct pre. }
    destruct Hsplit as [-> ->].
    exists self'. split; [exact Hfail |]. split; [| split].
    + apply (Hset (int_param "a" 2)); [left | reflexivity |].
      intros q' Hq' _. by apply list_elem_of_singleton in Hq'.
    + rewrite (Hout "b"); [reflexivity |].
      simpl. intros Hin. apply list_elem_of_singleton in Hin. discriminate Hin.
    + exact Hlen.
Defined.

(** ** No NOT_SET parameter is ever stored (C5) *)

Lemma declare_parameters_end_node
    (validator : string → option (string * Z)) (ns : string)
    (tuples : list (string * ParameterValue * ParameterDescriptor)) (self : Node) :
  (∀ u, u ∈ tuples → validator (ns +:+ u.1.1) = None) →
  (∀ u, u ∈ tuples → _parameters self !! (ns +:+ u.1.1) = None) →
  (∀ u, u ∈ tuples → successful (callback_result self [declared_parameter ns u]) = true) →
  ∀ k, _parameters (declare_parameters validator ns tuples self).1 !! k
       = after_batch (declared_parameter ns <$> tuples) (_parameters self) k.
Proof.
  intros Hv Habs Hacc k.
  destruct (loop_all_accepted true (declared_parameter ns <$> tuples) self)
    as (s & Hloop & _ & Hlk & _).
  { intros q Hq. apply list_elem_of_fmap in Hq as (u & -> & Hu). by apply Hacc. }
  rewrite declare_parameters_unfold, Hloop by done.
  by rewrite get_parameters_unchanged.
Qed.

(** C5.  From a node whose dictionary holds no parameter of type NOT_SET,
    each of declare, set, set-atomically and undeclare ends, whether it
    returns or raises, in a node whose dictionary holds none either.  And
    every operation that is given a NOT_SET parameter to set removes the
    name instead: after an accepted batch of the primitive or of
    [set_parameters_atomically] whose last entry for a name is NOT_SET the
    name is absent; after [set_parameters] a name whose last accepted entry
    is NOT_SET is absent, and [set_parameters] on one accepted NOT_SET
    parameter returns and leaves its name absent; a declare of valid, absent
    and singly accepted names leaves, however it ends, the dictionary it
    found with its tuples applied in order, so that a name whose last tuple
    has a NOT_SET value is absent and every other declared name is stored
    with its last tuple. *)
Theorem stored_parameters_are_never_not_set
    (validator : string → option (string * Z)) (self : Node) :
  store_ok self →
  (∀ ns tuples, store_ok (declare_parameters validator ns tuples self).1)
  ∧ (∀ l, store_ok (set_parameters l self).1)
  ∧ (∀ l, store_ok (set_parameters_atomically l self).1)
  ∧ (∀ l, store_ok (_set_parameters_atomically l self).1)
  ∧ (∀ k, store_ok (undeclare_parameter k self).1)
  ∧ (∀ l k p,
       last_entry k l = Some p → type_ p = NOT_SET →
       successful (callback_result self l) = true →
       _parameters (_set_parameters_atomically l self).1 !! k = None)
  ∧ (∀ l k p self' result,
       last_entry k l = Some p → type_ p = NOT_SET →
       set_parameters_atomically l self = (self', inr result) →
       successful result = true →
       _parameters self' !! k = None)
  ∧ (∀ l k p,
       last_entry k l = Some p → type_ p = NOT_SET →
       successful (callback_result self l) = true →
       _allow_undeclared_parameters self = true
       ∨ (∀ x, x ∈ l → is_Some (_parameters self !! name x)) →
       ∃ self',
         set_parameters_atomically l self = (self', inr (callback_result self l))
         ∧ _parameters self' !! k = None)
  ∧ (∀ l k p self' results,
       set_parameters l self = (self', inr results) →
       last_entry k (accepted_singly self l) = Some p → type_ p = NOT_SET →
       _parameters self' !! k = None)
  ∧ (∀ p,
       type_ p = NOT_SET →
       _allow_undeclared_parameters self = true ∨ is_Some (_parameters self !! name p) →
       successful (callback_result self [p]) = true →
       ∃ self',
         set_parameters [p] self = (self', inr [callback_result self [p]])
         ∧ _parameters self' !! name p = None)
  ∧ (∀ ns tuples,
       (∀ u, u ∈ tuples → validator (ns +:+ u.1.1) = None) →
       (∀ u, u ∈ tuples → _parameters self !! (ns +:+ u.1.1) = None) →
       (∀ u, u ∈ tuples →
             successful (callback_result self [declared_parameter ns u]) = true) →
       ∀ k, _parameters (declare_parameters validator ns tuples self).1 !! k
            = after_batch (declared_parameter ns <$> tuples) (_parameters self) k)
  ∧ (∀ ns tuples k p,
       (∀ u, u ∈ tuples → validator (ns +:+ u.1.1) = None) →
       (∀ u, u ∈ tuples → _parameters self !! (ns +:+ u.1.1) = None) →
       (∀ u, u ∈ tuples →
             successful (callback_result self [declared_parameter ns u]) = true) →
       last_entry k (declared_parameter ns <$> tuples) = Some p → type_ p = NOT_SET →
       _parameters (declare_parameters validator ns tuples self).1 !! k = None).
Proof.
  intros Hok.
  assert (Hatomic : ∀ l k p,
       last_entry k l = Some p → type_ p = NOT_SET →
       successful (callback_result self l) = true →
       _allow_undeclared_parameters self = true
       ∨ (∀ x, x ∈ l → is_Some (_parameters self !! name x)) →
       ∃ self',
         set_parameters_atomically l self = (self', inr (callback_result self l))
         ∧ _parameters self' !! k = None).
  { intros l k p Hl Ht Hacc Hpass.
    assert (Hpub : set_parameters_atomically l self = _set_parameters_atomically l self).
    { destruct Hpass as [Hallow | Hdecl].
      - unfold set_parameters_atomically. by rewrite Hallow.
      - by apply set_parameters_atomically_declared. }
    exists (_set_parameters_atomically l self).1. split.
    - rewrite Hpub. pose proof (atomically_returns l self) as Hr.
      destruct (_set_parameters_atomically l self) as [s r]. simpl in *. by subst.
    - rewrite atomically_lookup by done. by eapply after_batch_not_set. }
  split; [| split; [| split; [| split; [| split; [| split; [| split; [| split;
    [exact Hatomic | split; [| split; [| split]]]]]]]]]].
  - intros ns tuples. apply declare_parameters_preserves; [| exact Hok].
    apply atomically_store_ok.
  - intros l. by apply set_parameters_store_ok.
  - intros l. by apply set_parameters_atomically_store_ok.
  - intros l. by apply atomically_store_ok.
  - intros k. by apply undeclare_store_ok.
  - intros l k p Hl Ht Hacc. rewrite atomically_lookup by done.
    by eapply after_batch_not_set.
  - intros l k p self' result Hl Ht Hcall Hsucc.
    apply set_parameters_atomically_returned in Hcall.
    pose proof (atomically_returns l self) as Hr. rewrite Hcall in Hr.
    simpl in Hr. injection Hr as ->.
    replace self' with (_set_parameters_atomically l self).1 by (by rewrite Hcall).
    rewrite atomically_lookup by done. by eapply after_batch_not_set.
  - intros l k p self' results Hcall Hl Ht.
    destruct (set_parameters_returned l self self' results Hcall) as (_ & Hlk & _).
    rewrite Hlk. by eapply after_batch_not_set.
  - intros p Ht Hpass Hacc.
    destruct (Hatomic [p] (name p) p) as (self' & Hcall & Hnone); try done.
    + simpl. by rewrite decide_True.
    + destruct Hpass as [Hallow | Hdecl]; [by left | right].
      intros x Hx. by apply list_elem_of_singleton in Hx as ->.
    + exists self'. split; [| exact Hnone].
      by rewrite set_parameters_single, Hcall.
  - intros ns tuples Hv Habs Hacc k. by apply declare_parameters_end_node.
  - intros ns tuples k p Hv Habs Hacc Hl Ht.
    rewrite declare_parameters_end_node by done. by eapply after_batch_not_set.
Qed.

Lemma stored_parameters_are_never_not_set_witness :
  store_ok (node_a1 false)
  ∧ (∃ self',
       set_parameters [unset_param "a"] (node_a1 false)
         = (self', inr [SetParametersResult_ok])
       ∧ _parameters self' !! "a" = None)
  ∧ (∃ self',
       set_parameters_atomically [int_param "a" 2; unset_param "a"] (node_a1 false)
         = (self', inr SetParametersResult_ok)
       ∧ _parameters self' !! "a" = None)
  ∧ _parameters (declare_parameters sample_validator ""
                   [("b", PV_INTEGER 1, default_descriptor);
                    ("b", PV_NOT_SET, default_descriptor)] (node_a1 false)).1 !! "b" = None
  ∧ _parameters (declare_parameters sample_validator ""
                   [("b", PV_INTEGER 1, default_descriptor);
                    ("c", PV_NOT_SET, default_descriptor)] (node_a1 false)).1 !! "b"
    = Some (int_param "b" 1)
  ∧ store_ok (set_parameters [int_param "a" 2; unset_param "a"] (node_a1 false)).1.
Proof.
  assert (Hok : store_ok (node_a1 false)).
  { unfold store_ok, node_a1. simpl. apply map_Forall_singleton. discriminate. }
  destruct (stored_parameters_are_never_not_set sample_validator (node_a1 false) Hok)
    as (_ & Hset_ok & _ & _ & _ & _ & _ & Hatomic & _ & Hsingle & Hend & Hdeclare).
  split; [exact Hok |]. split; [| split; [| split; [| split]]].
  - apply (Hsingle (unset_param "a")); [reflexivity | right; by eexists | reflexivity].
  - apply (Hatomic [int_param "a" 2; unset_param "a"] "a" (unset_param "a"));
      [reflexivity | reflexivity | reflexivity |].
    right. intros x Hx.
    repeat (apply elem_of_cons in Hx as [-> | Hx]); try (by eexists).
    by apply elem_of_nil in Hx.
  - apply (Hdeclare "" [("b", PV_INTEGER 1, default_descriptor);
                        ("b", PV_NOT_SET, default_descriptor)]
             "b" (mkParam "b" PV_NOT_SET default_descriptor));
      try reflexivity;
      intros u Hu; repeat (apply elem_of_cons in Hu as [-> | Hu]);
      try reflexivity; by apply elem_of_nil in Hu.
  - rewrite (Hend "" [("b", PV_INTEGER 1, default_descriptor);
                      ("c", PV_NOT_SET, default_descriptor)]);
      try reflexivity;
      intros u Hu; repeat (apply elem_of_cons in Hu as [-> | Hu]);
      try reflexivity; by apply elem_of_nil in Hu.
  - apply Hset_ok.
Defined.

(** ** Read-only parameters (C9) *)


